(** * Directed graphs of [student_code.py]: store, Kahn sort, traversals, DAG guard

    The four classes [VersatileDigraph], [SortableDigraph],
    [TraversableDigraph] and [DAG] are embedded as functions over one record
    [digraph].  A Python [set] is a [gset], a [dict] a [gmap]; the order in
    which Python iterates over a set is not fixed by the language, so it is a
    parameter ([IterOrder]) about which nothing is known except that every
    member is enumerated once. *)

From stdpp Require Import base option list relations sets fin_sets gmap infinite strings.

#[global] Set Warnings "-clear-no-such-hyp".

(** ** Iteration order of a set *)

Class IterOrder (K : Type) `{Countable K} := {
  iter : gset K → list K;
  iter_NoDup : ∀ s, NoDup (iter s);
  elem_of_iter : ∀ s x, x ∈ iter s ↔ x ∈ s
}.

(** The enumeration of stdpp is one such order; its reverse is another. *)
#[export] Program Instance elements_order `{Countable K} : IterOrder K :=
  {| iter := elements |}.
Next Obligation. intros. apply NoDup_elements. Qed.
Next Obligation. intros. apply elem_of_elements. Qed.

Program Definition reverse_order `{Countable K} : IterOrder K :=
  {| iter s := reverse (elements s) |}.
Next Obligation. intros. rewrite reverse_Permutation. apply NoDup_elements. Qed.
Next Obligation. intros. rewrite elem_of_reverse. apply elem_of_elements. Qed.

(** ** Outcomes of a call *)

(** [KeyError k]: a [dict] subscript with a missing key.  [ValueError u v]:
    the error raised by [DAG.add_edge], whose message is formatted from the
    two end points of the rejected edge.  [IndexError]: [popleft] on an empty
    deque.  [OutOfFuel] is not a Python outcome: the [while] loops are
    bounded recursions, and it marks a bound that was too small. *)
Inductive exn (K : Type) : Type :=
  | KeyError (k : K)
  | ValueError (u v : K)
  | IndexError.
Arguments KeyError {K} k.
Arguments ValueError {K} u v.
Arguments IndexError {K}.

Inductive outcome (K A : Type) : Type :=
  | Ret (a : A)
  | Raise (e : exn K)
  | OutOfFuel.
Arguments Ret {K A} a.
Arguments Raise {K A} e.
Arguments OutOfFuel {K A}.

Definition obind {K A B} (x : outcome K A) (f : A → outcome K B) : outcome K B :=
  match x with
  | Ret a => f a
  | Raise e => Raise e
  | OutOfFuel => OutOfFuel
  end.

Definition omap {K A B} (f : A → B) (x : outcome K A) : outcome K B :=
  obind x (λ a, Ret (f a)).

(** A [for] loop whose body may raise. *)
Fixpoint for_each {K A S} (body : S → A → outcome K S) (s : S) (l : list A)
  : outcome K S :=
  match l with
  | [] => Ret s
  | a :: l' => obind (body s a) (λ s', for_each body s' l')
  end.

Section digraph.
Context `{Countable K} `{!IterOrder K}.

(** ** The object state *)

Record digraph : Type := Digraph {
  nodes : gset K;
  edges : gmap K (gset K)
}.

(** [__init__] *)
Definition init : digraph := Digraph ∅ ∅.

(** Methods that mutate [self]: the state after the call and its outcome.
    An exception leaves the state as it is at the point of the [raise]. *)
Definition method (A : Type) : Type := digraph → outcome K A * digraph.

Definition mret {A} (a : A) : method A := λ g, (Ret a, g).
Definition mraise {A} (e : exn K) : method A := λ g, (Raise e, g).
Definition mbind {A B} (m : method A) (f : A → method B) : method B :=
  λ g, match m g with
       | (Ret a, g') => f a g'
       | (Raise e, g') => (Raise e, g')
       | (OutOfFuel, g') => (OutOfFuel, g')
       end.
(** A read-only method called from a mutating one. *)
Definition mread {A} (q : digraph → outcome K A) : method A := λ g, (q g, g).

Notation "m1 ;;; m2" := (mbind m1 (λ _, m2))
  (at level 100, m2 at level 200, right associativity).
Notation "x ←m m1 ;;; m2" := (mbind m1 (λ x, m2))
  (at level 100, m1 at next level, m2 at level 200, right associativity).

Definition state_after {A} (m : method A) (g : digraph) : digraph := (m g).2.
Definition result_of {A} (m : method A) (g : digraph) : outcome K A := (m g).1.

(** ** VersatileDigraph *)

(** [self.nodes.add(node); if node not in self.edges: self.edges[node] = set()] *)
Definition add_node (node : K) : method () := λ g,
  let nodes' := nodes g ∪ {[node]} in
  match edges g !! node with
  | None => (Ret (), Digraph nodes' (<[node := ∅]> (edges g)))
  | Some _ => (Ret (), Digraph nodes' (edges g))
  end.

(** [self.edges[u].add(v)]: the subscript raises [KeyError] on a missing key. *)
Definition edges_add (u v : K) : method () := λ g,
  match edges g !! u with
  | Some s => (Ret (), Digraph (nodes g) (<[u := s ∪ {[v]}]> (edges g)))
  | None => (Raise (KeyError u), g)
  end.

Definition add_edge (u v : K) : method () :=
  add_node u ;;; add_node v ;;; edges_add u v.

(** [self.edges.get(node, set())] *)
Definition get_neighbors (g : digraph) (node : K) : gset K :=
  default ∅ (edges g !! node).

(** [list(self.nodes)] *)
Definition get_all_nodes (g : digraph) : list K := iter (nodes g).

(** ** SortableDigraph *)

(** [in_degree[neighbor] += 1] and [in_degree[neighbor] -= 1] *)
Definition bump (d : Z) (in_degree : gmap K Z) (k : K) : outcome K (gmap K Z) :=
  match in_degree !! k with
  | Some c => Ret (<[k := (c + d)%Z]> in_degree)
  | None => Raise (KeyError k)
  end.

(** The first two loops of [top_sort]: the dict comprehension, then one
    increment per edge. *)
Definition in_degrees (g : digraph) : outcome K (gmap K Z) :=
  let zero := foldl (λ m n, <[n := 0%Z]> m) (∅ : gmap K Z) (iter (nodes g)) in
  for_each
    (λ m current_node, for_each (bump 1) m (iter (get_neighbors g current_node)))
    zero (iter (nodes g)).

(** [for n in self.nodes: if in_degree[n] == 0: queue.append(n)] *)
Definition initial_queue (g : digraph) (in_degree : gmap K Z) : outcome K (list K) :=
  for_each
    (λ queue n, match in_degree !! n with
                | Some c => Ret (if decide (c = 0%Z) then queue ++ [n] else queue)
                | None => Raise (KeyError n)
                end)
    [] (iter (nodes g)).

(** Body of the inner [for] of the [while] loop, on the pair of the two
    locals it updates. *)
Definition relax (st : gmap K Z * list K) (neighbor : K)
  : outcome K (gmap K Z * list K) :=
  obind (bump (-1) st.1 neighbor) (λ in_degree,
    Ret (in_degree,
         if decide (in_degree !! neighbor = Some 0%Z)
         then st.2 ++ [neighbor] else st.2)).

(** [while queue: ...]; the deque is a list with its left end at the head. *)
Fixpoint top_sort_loop (fuel : nat) (g : digraph)
    (in_degree : gmap K Z) (queue top_order : list K) : outcome K (list K) :=
  match fuel with
  | 0 => OutOfFuel
  | S fuel' =>
    match queue with
    | [] => Ret top_order
    | current :: queue' =>
      obind (for_each relax (in_degree, queue') (iter (get_neighbors g current)))
        (λ st, top_sort_loop fuel' g st.1 st.2 (top_order ++ [current]))
    end
  end.

Definition top_sort (g : digraph) : outcome K (list K) :=
  obind (in_degrees g) (λ in_degree,
  obind (initial_queue g in_degree) (λ queue,
  top_sort_loop (S (size (nodes g))) g in_degree queue [])).

(** ** TraversableDigraph *)

(** The generators [dfs] and [bfs] are embedded by the finite list of the
    values they yield, in order: [yield x] followed by the rest of the run
    is [x ::] in front of what the rest yields. *)

(** Every adjacency set is pushed at most once; [pending g visited] counts
    the members of the adjacency sets of the keys not yet visited, which
    bounds the number of iterations of [dfs] still to come. *)
Definition pending (g : digraph) (visited : gset K) : nat :=
  sum_list_with (λ k, size (get_neighbors g k))
                (elements (dom (edges g) ∖ visited)).

(** Every node that is a member of some adjacency set. *)
Definition targets (g : digraph) : gset K :=
  ⋃ ((map_to_list (edges g)).*2).

(** [for neighbor in ...: if neighbor not in visited: stack.append(neighbor)];
    the stack is a list with its top (the right end of the Python list) at
    the head. *)
Definition push_unvisited (visited : gset K) (stack : list K) (nbrs : list K)
  : list K :=
  foldl (λ st neighbor, if decide (neighbor ∈ visited) then st else neighbor :: st)
        stack nbrs.

Fixpoint dfs_loop (fuel : nat) (g : digraph) (stack : list K) (visited : gset K)
  : outcome K (list K) :=
  match fuel with
  | 0 => OutOfFuel
  | S fuel' =>
    match stack with
    | [] => Ret []
    | current_node :: stack' =>
      if decide (current_node ∈ visited) then dfs_loop fuel' g stack' visited
      else
        let visited' := visited ∪ {[current_node]} in
        omap (cons current_node)
          (dfs_loop fuel' g
             (push_unvisited visited' stack'
                (reverse (iter (get_neighbors g current_node))))
             visited')
    end
  end.

Definition dfs (g : digraph) (start : K) : outcome K (list K) :=
  if decide (start ∈ nodes g) then dfs_loop (S (S (pending g ∅))) g [start] ∅
  else Ret [].

(** [queue.popleft()] *)
Definition popleft (queue : list K) : outcome K (K * list K) :=
  match queue with
  | [] => Raise IndexError
  | x :: queue' => Ret (x, queue')
  end.

(** [if neighbor not in visited: visited.add(neighbor); queue.append(neighbor)] *)
Definition discover (st : gset K * list K) (neighbor : K) : gset K * list K :=
  if decide (neighbor ∈ st.1) then st
  else (st.1 ∪ {[neighbor]}, st.2 ++ [neighbor]).

Fixpoint bfs_loop (fuel : nat) (g : digraph) (queue : list K) (visited : gset K)
  : outcome K (list K) :=
  match fuel with
  | 0 => OutOfFuel
  | S fuel' =>
    match queue with
    | [] => Ret []
    | current_node :: queue' =>
      let st := foldl discover (visited, queue') (iter (get_neighbors g current_node)) in
      omap (cons current_node) (bfs_loop fuel' g st.2 st.1)
    end
  end.

Definition bfs (g : digraph) (start : K) : outcome K (list K) :=
  if decide (start ∈ nodes g) then
    let visited := {[start]} in
    let queue := [start] in
    obind (popleft queue) (λ '(_, queue),
      bfs_loop (S (S (size (targets g)))) g queue visited)
  else Ret [].

(** ** DAG *)

(** The inner [for] of [_has_path]: [None] when it leaves through
    [return True], otherwise the two locals after the last neighbor. *)
Fixpoint scan (end_ : K) (nbrs : list K) (visited : gset K) (queue : list K)
  : option (gset K * list K) :=
  match nbrs with
  | [] => Some (visited, queue)
  | neighbor :: nbrs' =>
    if decide (neighbor = end_) then None
    else if decide (neighbor ∈ visited) then scan end_ nbrs' visited queue
    else scan end_ nbrs' (visited ∪ {[neighbor]}) (queue ++ [neighbor])
  end.

Fixpoint has_path_loop (fuel : nat) (g : digraph) (end_ : K)
    (queue : list K) (visited : gset K) : outcome K bool :=
  match fuel with
  | 0 => OutOfFuel
  | S fuel' =>
    match queue with
    | [] => Ret false
    | current_node :: queue' =>
      match scan end_ (iter (get_neighbors g current_node)) visited queue' with
      | None => Ret true
      | Some (visited', queue'') => has_path_loop fuel' g end_ queue'' visited'
      end
    end
  end.

Definition has_path (g : digraph) (start end_ : K) : outcome K bool :=
  if decide (start = end_) then Ret true
  else has_path_loop (S (S (size (targets g)))) g end_ [start] {[start]}.

(** [DAG.add_edge]: the check, then [super().add_edge(u, v)]. *)
Definition DAG_add_edge (u v : K) : method () :=
  cycle ←m mread (λ g, has_path g v u) ;;;
  if (cycle : bool) then mraise (ValueError u v) else add_edge u v.

Definition successors (g : digraph) (node : K) : list K :=
  iter (get_neighbors g node).

End digraph.

Arguments digraph K {_ _}.
Arguments method K {_ _} A.

(** ** Objects and references

    [get_neighbors] returns a [set] object, and what a caller can do to the
    graph through it depends on which object it is.  Here every [set] lives
    in a heap at a location; [self.nodes] is a location, and [self.edges]
    maps a node to the location of its adjacency set. *)

Section heap_model.
Context `{Countable K} `{!IterOrder K}.

Definition loc : Type := positive.

Record hgraph : Type := HGraph {
  heap : gmap loc (gset K);
  nodes_ref : loc;
  edges_tbl : gmap K loc
}.

(** [set()]: a new object at a location not in use. *)
Definition alloc (h : gmap loc (gset K)) (s : gset K) : loc * gmap loc (gset K) :=
  let l := fresh (dom h) in (l, <[l := s]> h).

(** A mutation of the object at [l]: afterwards it holds [f] of what it
    held. *)
Definition update (l : loc) (f : gset K → gset K) (h : gmap loc (gset K))
  : gmap loc (gset K) :=
  alter f l h.

(** [s.add(x)] on the object at [l]. *)
Definition set_add (l : loc) (x : K) (h : gmap loc (gset K)) : gmap loc (gset K) :=
  update l (λ s, s ∪ {[x]}) h.

Definition h_init : hgraph :=
  let '(l, h) := alloc ∅ ∅ in HGraph h l ∅.

Definition h_add_node (node : K) (σ : hgraph) : hgraph :=
  let h := set_add (nodes_ref σ) node (heap σ) in
  match edges_tbl σ !! node with
  | None =>
    let '(l, h') := alloc h ∅ in
    HGraph h' (nodes_ref σ) (<[node := l]> (edges_tbl σ))
  | Some _ => HGraph h (nodes_ref σ) (edges_tbl σ)
  end.

Definition h_add_edge (u v : K) (σ : hgraph) : outcome K () * hgraph :=
  let σ := h_add_node v (h_add_node u σ) in
  match edges_tbl σ !! u with
  | Some l => (Ret (), HGraph (set_add l v (heap σ)) (nodes_ref σ) (edges_tbl σ))
  | None => (Raise (KeyError u), σ)
  end.

(** [self.edges.get(node, set())]: the default is built before the lookup;
    the result is the object stored under [node] when there is one. *)
Definition h_get_neighbors (node : K) (σ : hgraph) : loc * hgraph :=
  let '(l0, h) := alloc (heap σ) ∅ in
  let σ' := HGraph h (nodes_ref σ) (edges_tbl σ) in
  match edges_tbl σ !! node with
  | Some l => (l, σ')
  | None => (l0, σ')
  end.

(** The caller mutates the set it was handed ([add], [discard], [clear],
    [update], ...). *)
Definition caller_mutates (r : loc) (f : gset K → gset K) (σ : hgraph) : hgraph :=
  HGraph (update r f (heap σ)) (nodes_ref σ) (edges_tbl σ).

(** The set stored at a location. *)
Definition deref (h : gmap loc (gset K)) (l : loc) : gset K := default ∅ (h !! l).

(** The graph that the object denotes. *)
Definition view (σ : hgraph) : digraph K :=
  Digraph (deref (heap σ) (nodes_ref σ)) (deref (heap σ) <$> edges_tbl σ).

(** Shape of the heap of a graph object: its sets are allocated, and no two
    fields share one. *)
Definition h_wf (σ : hgraph) : Prop :=
  nodes_ref σ ∈ dom (heap σ) ∧
  (∀ k l, edges_tbl σ !! k = Some l → l ∈ dom (heap σ) ∧ l ≠ nodes_ref σ) ∧
  (∀ k k' l, edges_tbl σ !! k = Some l → edges_tbl σ !! k' = Some l → k = k').

(** C9 as it is stated: whatever the caller does to the set returned by
    [get_neighbors(n)], the graph is as before. *)
Definition mutation_safe (σ : hgraph) (n : K) : Prop :=
  ∀ f, view (caller_mutates (h_get_neighbors n σ).1 f (h_get_neighbors n σ).2)
       = view σ.

End heap_model.

Arguments hgraph K {_ _}.

(** One edge, as the object model builds it. *)
Definition aliasing_example : hgraph nat := (h_add_edge 1 2 h_init).2.

(** * Vocabulary of the specification *)

Section vocabulary.
Context `{Countable K} `{!IterOrder K}.
Implicit Types (g : digraph K) (u v n k : K).

(** [u → v] is an edge of the graph: [v ∈ get_neighbors(u)]. *)
Definition edge g u v : Prop := v ∈ get_neighbors g u.

(** The data-model invariant: the keys of the adjacency map are the nodes,
    and every neighbor is a node. *)
Definition wf g : Prop :=
  dom (edges g) = nodes g ∧ ∀ u v, edge g u v → v ∈ nodes g.

(** No non-empty directed path leads from a node back to itself. *)
Definition acyclic g : Prop := ∀ n, ¬ tc (edge g) n n.

(** The adjacency map after [add_node]. *)
Definition touch k (m : gmap K (gset K)) : gmap K (gset K) :=
  match m !! k with None => <[k := ∅]> m | Some _ => m end.

(** Calls that build a graph, and the state they lead to from the empty
    graph: with the insertion of the base class, and with that of [DAG]
    (after a rejected insertion the run goes on from the state the failed
    call left). *)
Inductive op : Type :=
  | AddNode (n : K)
  | AddEdge (u v : K).

Definition step_base g (o : op) : digraph K :=
  match o with
  | AddNode n => state_after (add_node n) g
  | AddEdge u v => state_after (add_edge u v) g
  end.

Definition step_dag g (o : op) : digraph K :=
  match o with
  | AddNode n => state_after (add_node n) g
  | AddEdge u v => state_after (DAG_add_edge u v) g
  end.

Definition run_base (ops : list op) : digraph K := foldl step_base init ops.
Definition run_dag (ops : list op) : digraph K := foldl step_dag init ops.

(** [u] occurs strictly before [v] in [l]. *)
Definition precedes (l : list K) u v : Prop :=
  ∃ i j, l !! i = Some u ∧ l !! j = Some v ∧ i < j.

(** Number of edges into [n] that start in [X]. *)
Definition preds_in g (X : gset K) n : nat :=
  size (filter (λ u, n ∈ get_neighbors g u) X).

(** [1] when [P] holds, [0] otherwise. *)
Definition ind (P : Prop) `{!Decision P} : nat := if decide P then 1 else 0.

(** The state of the [while] loop of [top_sort] while the neighbors [L] of
    the node popped last are still to be relaxed. *)
Definition kahn_inv g (L : list K) (m : gmap K Z) (q t : list K) : Prop :=
  dom m = nodes g ∧
  (∀ n, n ∈ nodes g →
     m !! n = Some (Z.of_nat (preds_in g (nodes g ∖ list_to_set t) n + ind (n ∈ L)))) ∧
  NoDup (t ++ q) ∧
  (∀ n, n ∈ t ++ q ↔ m !! n = Some 0%Z) ∧
  (∀ u v, edge g u v → v ∈ t ++ q → precedes (t ++ q) u v).

(** The graph [a → b, b → c, c → a] built with the base insertion. *)
Definition cycle3 (a b c : K) : digraph K :=
  run_base [AddEdge a b; AddEdge b c; AddEdge c a].

(** The graph [a → b, a → c, b → d, c → d] built with the base insertion. *)
Definition diamond (a b c d : K) : digraph K :=
  run_base [AddEdge a b; AddEdge a c; AddEdge b d; AddEdge c d].

(** The nodes whose counter is still positive. *)
Definition waiting (m : gmap K Z) : gset K := dom (filter (λ kz, (0 < kz.2)%Z) m).

(** Every neighbor of a node is a node. *)
Definition closed g : Prop := ∀ u v, u ∈ nodes g → edge g u v → v ∈ nodes g.

End vocabulary.

Arguments op K : clear implicits.

(** The graph of the demonstration at the end of the source file, built
    through [DAG.add_edge], and a state the methods cannot reach, in which a
    neighbor is not a node. *)
Section example_graphs.
Local Open Scope string_scope.

Definition clothing : digraph string :=
  run_dag
    [AddNode "shirt"; AddNode "pants"; AddNode "socks"; AddNode "vest";
     AddNode "tie"; AddNode "belt"; AddNode "shoes"; AddNode "jacket";
     AddEdge "shirt" "tie"; AddEdge "shirt" "pants"; AddEdge "shirt" "vest";
     AddEdge "shirt" "jacket"; AddEdge "tie" "jacket"; AddEdge "pants" "belt";
     AddEdge "pants" "shoes"; AddEdge "socks" "shoes"; AddEdge "vest" "jacket";
     AddEdge "belt" "jacket"].

Definition dangling : digraph nat := Digraph {[1]} {[1 := {[2]}]}.

End example_graphs.

(** * Properties *)

(** ** The Graph Store: what [add_node] and [add_edge] do to the state *)

Section store_theory.
Context `{Countable K} `{!IterOrder K}.
Implicit Types (g : digraph K) (u v n k : K).

Lemma touch_lookup k k' m : default ∅ (touch k m !! k') = default ∅ (m !! k').
Proof.
  unfold touch. destruct (m !! k) eqn:E; [done|].
  destruct (decide (k = k')) as [->|]; [|by rewrite lookup_insert_ne].
  by rewrite lookup_insert_eq, E.
Qed.

Lemma touch_is_Some k m : is_Some (touch k m !! k).
Proof.
  unfold touch. destruct (m !! k) eqn:E; [by rewrite E|].
  rewrite lookup_insert_eq. eauto.
Qed.

Lemma dom_touch k m : dom (touch k m) = dom m ∪ {[k]}.
Proof.
  unfold touch. destruct (m !! k) eqn:E.
  - apply elem_of_dom_2 in E. set_solver.
  - rewrite dom_insert_L. set_solver.
Qed.

Lemma add_node_eq n g :
  add_node n g = (Ret (), Digraph (nodes g ∪ {[n]}) (touch n (edges g))).
Proof. unfold add_node, touch. by destruct (edges g !! n). Qed.

Lemma add_edge_eq u v g :
  add_edge u v g =
  (Ret (), Digraph (nodes g ∪ {[u]} ∪ {[v]})
             (<[u := get_neighbors g u ∪ {[v]}]> (touch v (touch u (edges g))))).
Proof.
  unfold add_edge, mbind. rewrite !add_node_eq. unfold edges_add; simpl.
  destruct (touch_is_Some u (edges g)) as [s Hs].
  assert (default ∅ (touch v (touch u (edges g)) !! u) = get_neighbors g u) as Hd.
  { unfold get_neighbors. by rewrite !touch_lookup. }
  destruct (touch v (touch u (edges g)) !! u) as [s'|] eqn:E.
  - simpl in Hd. by rewrite Hd.
  - exfalso. pose proof (dom_touch v (touch u (edges g))) as Hdom.
    apply not_elem_of_dom in E. apply elem_of_dom_2 in Hs. set_solver.
Qed.

Lemma nodes_add_edge u v g :
  nodes (state_after (add_edge u v) g) = nodes g ∪ {[u]} ∪ {[v]}.
Proof. unfold state_after. by rewrite add_edge_eq. Qed.

Lemma dom_add_edge u v g :
  dom (edges (state_after (add_edge u v) g)) = dom (edges g) ∪ {[u]} ∪ {[v]}.
Proof.
  unfold state_after. rewrite add_edge_eq. simpl.
  rewrite dom_insert_L, !dom_touch. set_solver.
Qed.

Lemma get_neighbors_add_edge u v g k :
  get_neighbors (state_after (add_edge u v) g) k =
  if decide (k = u) then get_neighbors g u ∪ {[v]} else get_neighbors g k.
Proof.
  unfold state_after. rewrite add_edge_eq. unfold get_neighbors at 1. simpl.
  case_decide as Hk.
  - subst. by rewrite lookup_insert_eq.
  - rewrite lookup_insert_ne by done. by rewrite !touch_lookup.
Qed.

Lemma edge_add_edge u v g x y :
  edge (state_after (add_edge u v) g) x y ↔ edge g x y ∨ (x = u ∧ y = v).
Proof.
  unfold edge. rewrite get_neighbors_add_edge. case_decide; set_solver.
Qed.

Lemma get_neighbors_add_node n g k :
  get_neighbors (state_after (add_node n) g) k = get_neighbors g k.
Proof.
  unfold state_after. rewrite add_node_eq. unfold get_neighbors. simpl.
  apply touch_lookup.
Qed.

Lemma edge_add_node n g x y :
  edge (state_after (add_node n) g) x y ↔ edge g x y.
Proof. unfold edge. by rewrite get_neighbors_add_node. Qed.

Lemma wf_init : wf (init : digraph K).
Proof.
  split; [apply dom_empty_L|].
  intros u v. unfold edge, get_neighbors. simpl. rewrite lookup_empty. set_solver.
Qed.

Lemma wf_add_node n g : wf g → wf (state_after (add_node n) g).
Proof.
  intros [Hd He]. split.
  - unfold state_after. rewrite add_node_eq. simpl. rewrite dom_touch. by rewrite Hd.
  - intros u v. rewrite edge_add_node. intros Hu%He.
    unfold state_after. rewrite add_node_eq. simpl. set_solver.
Qed.

Lemma wf_add_edge u v g : wf g → wf (state_after (add_edge u v) g).
Proof.
  intros [Hd He]. split.
  - rewrite dom_add_edge, nodes_add_edge. by rewrite Hd.
  - intros x y. rewrite edge_add_edge, nodes_add_edge.
    intros [Hxy%He|[-> ->]]; set_solver.
Qed.

Lemma edge_dom g u v : edge g u v → u ∈ dom (edges g).
Proof.
  unfold edge, get_neighbors. destruct (edges g !! u) eqn:E; simpl.
  - intros _. by apply elem_of_dom_2 in E.
  - set_solver.
Qed.

End store_theory.

(** ** The invariant of the data model along runs *)

Section store_claims.
Context `{Countable K} `{!IterOrder K}.
Implicit Types (g : digraph K) (u v n k : K).

Lemma DAG_add_edge_state u v g :
  state_after (DAG_add_edge u v) g = g ∨
  (has_path g v u = Ret false ∧ DAG_add_edge u v g = add_edge u v g).
Proof.
  unfold state_after, DAG_add_edge, mbind, mread, mraise.
  destruct (has_path g v u) as [[]| |]; simpl; auto.
Qed.

Lemma wf_step_base g o : wf g → wf (step_base g o).
Proof. destruct o; simpl; auto using wf_add_node, wf_add_edge. Qed.

Lemma wf_step_dag g o : wf g → wf (step_dag g o).
Proof.
  destruct o as [n|u v]; simpl; [apply wf_add_node|].
  intros Hg. destruct (DAG_add_edge_state u v g) as [->|[_ E]]; [done|].
  unfold state_after. rewrite E. by apply wf_add_edge.
Qed.

Lemma wf_foldl (step : digraph K → op K → digraph K) ops g :
  (∀ g o, wf g → wf (step g o)) → wf g → wf (foldl step g ops).
Proof. intros Hs. revert g. induction ops; simpl; auto. Qed.

Lemma wf_lookup g k s x : wf g → edges g !! k = Some s → x ∈ s → x ∈ nodes g.
Proof.
  intros [_ He] Hk Hx. apply (He k). unfold edge, get_neighbors. by rewrite Hk.
Qed.

End store_claims.

(** ** [_has_path] decides reachability; the guard of [DAG.add_edge] *)

Section reach_theory.
Context `{Countable K} `{!IterOrder K}.
Implicit Types (g : digraph K) (u v n k start : K) (V : gset K) (q nbrs : list K).

Lemma elem_of_targets g x : x ∈ targets g ↔ ∃ u, edge g u x.
Proof.
  unfold targets, edge, get_neighbors. rewrite elem_of_union_list. split.
  - intros (X & HX & Hx). apply list_elem_of_fmap in HX as ([k X'] & -> & Hk).
    apply elem_of_map_to_list in Hk. exists k. by rewrite Hk.
  - intros (u & Hu). destruct (edges g !! u) as [X|] eqn:E; simpl in Hu; [|set_solver].
    exists X. split; [|done]. apply list_elem_of_fmap. exists (u, X).
    split; [done|]. by apply elem_of_map_to_list.
Qed.

Lemma size_remove (X : gset K) x : x ∈ X → size X = S (size (X ∖ {[x]})).
Proof.
  intros Hx.
  assert (X = {[x]} ∪ (X ∖ {[x]})) as HX.
  { apply set_eq. intros y. destruct (decide (y = x)); set_solver. }
  rewrite HX at 1. rewrite size_union by set_solver. by rewrite size_singleton.
Qed.

Lemma scan_potential (U : gset K) (end_ : K) nbrs V q V' q' :
  (∀ x, x ∈ nbrs → x ∈ U) →
  scan end_ nbrs V q = Some (V', q') →
  length q' + size (U ∖ V') = length q + size (U ∖ V).
Proof.
  revert V q. induction nbrs as [|nb nbrs IH]; intros V q HU; simpl.
  - by intros [= -> ->].
  - case_decide; [done|]. case_decide as Hv.
    + apply IH. set_solver.
    + intros E. apply IH in E; [|set_solver]. rewrite E, length_app. simpl.
      rewrite (size_remove (U ∖ V) nb) by set_solver.
      replace (U ∖ V ∖ {[nb]}) with (U ∖ (V ∪ {[nb]})) by set_solver. lia.
Qed.

Lemma scan_found (end_ : K) nbrs V q :
  scan end_ nbrs V q = None ↔ end_ ∈ nbrs.
Proof.
  revert V q. induction nbrs as [|nb nbrs IH]; intros V q; simpl.
  - split; [done|]. by intros ?%elem_of_nil.
  - rewrite elem_of_cons. case_decide; [naive_solver|].
    case_decide; rewrite IH; naive_solver.
Qed.

Lemma scan_continue (end_ : K) nbrs V q V' q' :
  scan end_ nbrs V q = Some (V', q') →
  (∀ x, x ∈ V' ↔ x ∈ V ∨ x ∈ nbrs) ∧
  (∀ x, x ∈ q' ↔ x ∈ q ∨ (x ∈ nbrs ∧ x ∉ V)).
Proof.
  revert V q. induction nbrs as [|nb nbrs IH]; intros V q; simpl.
  - intros [= -> ->]. set_solver.
  - case_decide; [done|]. case_decide as Hv; intros [IH1 IH2]%IH; split; intros x.
    + rewrite IH1, elem_of_cons. destruct (decide (x = nb)) as [->|]; naive_solver.
    + rewrite IH2, elem_of_cons. destruct (decide (x = nb)) as [->|]; naive_solver.
    + rewrite IH1, elem_of_cons, elem_of_union, elem_of_singleton. naive_solver.
    + rewrite IH2, elem_of_app, list_elem_of_singleton, elem_of_cons,
        not_elem_of_union, elem_of_singleton.
      destruct (decide (x = nb)) as [->|]; naive_solver.
Qed.

Lemma has_path_loop_correct g start end_ fuel q V :
  length q + size (targets g ∖ V) < fuel →
  start ∈ V → end_ ∉ V →
  (∀ x, x ∈ V → rtc (edge g) start x) →
  (∀ x, x ∈ q → x ∈ V) →
  (∀ x y, x ∈ V → x ∉ q → edge g x y → y ∈ V) →
  ∃ b, has_path_loop fuel g end_ q V = Ret b ∧ (b = true ↔ rtc (edge g) start end_).
Proof.
  revert q V. induction fuel as [|fuel IH]; intros q V Hfuel Hs He Hreach Hq Hclosed;
    [lia|]. simpl. destruct q as [|c q].
  - exists false. split; [done|]. split; [done|]. intros Hp. exfalso. apply He.
    clear -Hp Hs Hclosed. induction Hp as [|x y z Hxy _ IHp]; [done|].
    apply IHp. eapply Hclosed; [done| |done]. by intros ?%elem_of_nil.
  - destruct (scan end_ (iter (get_neighbors g c)) V q) as [[V' q']|] eqn:E.
    + pose proof (scan_continue _ _ _ _ _ _ E) as [HV' Hq'].
      assert (end_ ∉ iter (get_neighbors g c)) as Hne.
      { rewrite <-scan_found. by rewrite E. }
      apply IH.
      * apply (scan_potential (targets g)) in E.
        -- simpl in Hfuel. lia.
        -- intros x Hx%elem_of_iter. apply elem_of_targets. by exists c.
      * apply HV'. by left.
      * rewrite HV'. intros [?|?]; done.
      * intros x [Hx|Hx%elem_of_iter]%HV'; [by apply Hreach|].
        eapply rtc_r; [apply Hreach, Hq; left|done].
      * intros x [Hx|[Hx _]]%Hq'; apply HV'; [left; apply Hq; by right|by right].
      * intros x y Hx%HV' Hxq Hxy. apply HV'.
        destruct (decide (x = c)) as [->|Hxc]; [right; by apply elem_of_iter|].
        destruct Hx as [Hx|Hx].
        -- left. eapply Hclosed; [done| |done].
           rewrite elem_of_cons. intros [?|Hin]; [done|]. apply Hxq, Hq'. by left.
        -- destruct (decide (x ∈ V)) as [HxV|HxV].
           ++ left. eapply Hclosed; [done| |done].
              rewrite elem_of_cons. intros [?|Hin]; [done|]. apply Hxq, Hq'. by left.
           ++ exfalso. apply Hxq, Hq'. by right.
    + exists true. split; [done|]. split; [|done]. intros _.
      apply scan_found, elem_of_iter in E.
      eapply rtc_r; [apply Hreach, Hq; left|done].
Qed.

Theorem has_path_correct g start end_ :
  ∃ b, has_path g start end_ = Ret b ∧ (b = true ↔ rtc (edge g) start end_).
Proof.
  unfold has_path. case_decide as Hse.
  - subst. exists true. done.
  - apply has_path_loop_correct.
    + simpl. assert (size (targets g ∖ {[start]}) ≤ size (targets g)) as Hle
        by (apply subseteq_size; set_solver).
      lia.
    + set_solver.
    + set_solver.
    + intros x ->%elem_of_singleton. done.
    + intros x ->%list_elem_of_singleton. set_solver.
    + intros x y ->%elem_of_singleton Hx. exfalso. apply Hx. by left.
Qed.

Lemma DAG_add_edge_cycle g u v :
  rtc (edge g) v u → DAG_add_edge u v g = (Raise (ValueError u v), g).
Proof.
  intros Hp. destruct (has_path_correct g v u) as (b & Hb & Hiff).
  unfold DAG_add_edge, mbind, mread, mraise. rewrite Hb.
  apply Hiff in Hp. by subst.
Qed.

Lemma DAG_add_edge_no_cycle g u v :
  ¬ rtc (edge g) v u → DAG_add_edge u v g = add_edge u v g.
Proof.
  intros Hp. destruct (has_path_correct g v u) as (b & Hb & Hiff).
  unfold DAG_add_edge, mbind, mread, mraise. rewrite Hb.
  destruct b; [|done]. exfalso. by apply Hp, Hiff.
Qed.

Lemma rtc_edge_dec g v u : rtc (edge g) v u ∨ ¬ rtc (edge g) v u.
Proof.
  destruct (has_path_correct g v u) as ([] & _ & Hiff).
  - left. by apply Hiff.
  - right. intros ?%Hiff. done.
Qed.

Lemma tc_add_edge g u v x y :
  ¬ rtc (edge g) v u →
  tc (edge (state_after (add_edge u v) g)) x y →
  tc (edge g) x y ∨ (rtc (edge g) x u ∧ rtc (edge g) v y).
Proof.
  intros Hvu Hp. induction Hp as [x y Hxy|x y z Hxy _ IH].
  - apply edge_add_edge in Hxy as [Hxy|[-> ->]]; [left; by apply tc_once|by right].
  - apply edge_add_edge in Hxy as [Hxy|[-> ->]].
    + destruct IH as [IH|[IH1 IH2]].
      * left. by eapply tc_l.
      * right. split; [|done]. by eapply rtc_l.
    + destruct IH as [IH|[IH1 IH2]].
      * right. split; [done|]. by apply tc_rtc.
      * done.
Qed.

Lemma acyclic_add_edge g u v :
  acyclic g → ¬ rtc (edge g) v u → acyclic (state_after (add_edge u v) g).
Proof.
  intros Hg Hvu n Hn. apply tc_add_edge in Hn; [|done].
  destruct Hn as [Hn|[Hn1 Hn2]].
  - by apply (Hg n).
  - apply Hvu. by etrans.
Qed.

Lemma tc_add_node g n x y :
  tc (edge (state_after (add_node n) g)) x y ↔ tc (edge g) x y.
Proof.
  split; intros Hp; (induction Hp as [x y Hxy|x y z Hxy _ IH];
    [apply tc_once|eapply tc_l; [|done]]); by apply edge_add_node in Hxy || by apply edge_add_node.
Qed.

Lemma acyclic_init : acyclic (init : digraph K).
Proof.
  intros n Hn. assert (∀ x y, ¬ edge (init : digraph K) x y) as Hno.
  { intros x y. unfold edge, get_neighbors. simpl. rewrite lookup_empty. set_solver. }
  destruct Hn as [?? Hxy|??? Hxy _]; by apply Hno in Hxy.
Qed.

Lemma acyclic_step_dag g o : acyclic g → acyclic (step_dag g o).
Proof.
  intros Hg. destruct o as [n|u v]; simpl.
  - intros x Hx%tc_add_node. by apply (Hg x).
  - destruct (rtc_edge_dec g v u) as [Hp|Hp].
    + unfold state_after. by rewrite DAG_add_edge_cycle.
    + unfold state_after. rewrite DAG_add_edge_no_cycle by done.
      by apply acyclic_add_edge.
Qed.

Lemma acyclic_run_dag (ops : list (op K)) : acyclic (run_dag ops).
Proof.
  unfold run_dag. generalize (acyclic_init). generalize (init : digraph K).
  induction ops as [|o ops IH]; intros g Hg; simpl; [done|].
  by apply IH, acyclic_step_dag.
Qed.

End reach_theory.

(** ** [top_sort]: the counters and the loop invariant *)

Section kahn_theory.
Context `{Countable K} `{!IterOrder K}.
Implicit Types (g : digraph K) (u v n k c : K) (X V : gset K) (q t l : list K)
  (m : gmap K Z).

Lemma preds_in_insert g X c n :
  c ∉ X → preds_in g (X ∪ {[c]}) n = preds_in g X n + ind (n ∈ get_neighbors g c).
Proof.
  intros Hc. unfold preds_in, ind.
  set (P := λ u, n ∈ get_neighbors g u).
  assert (filter P (X ∪ {[c]}) = filter P X ∪ filter P {[c]}) as -> by set_solver.
  rewrite size_union by set_solver. f_equal. case_decide.
  - assert (filter P ({[c]} : gset K) = {[c]}) as -> by set_solver.
    apply size_singleton.
  - assert (filter P ({[c]} : gset K) = ∅) as -> by set_solver.
    apply size_empty.
Qed.

Lemma preds_in_remove g X c n :
  c ∈ X → preds_in g X n = preds_in g (X ∖ {[c]}) n + ind (n ∈ get_neighbors g c).
Proof.
  intros Hc. assert (X = X ∖ {[c]} ∪ {[c]}) as HS.
  { apply set_eq. intros y. destruct (decide (y = c)); set_solver. }
  rewrite HS at 1. apply preds_in_insert. set_solver.
Qed.

Lemma preds_in_empty g n : preds_in g ∅ n = 0.
Proof.
  unfold preds_in.
  assert (filter (λ u, n ∈ get_neighbors g u) (∅ : gset K) = ∅) as -> by set_solver.
  apply size_empty.
Qed.

Lemma preds_in_pos g X n : 0 < preds_in g X n → ∃ u, u ∈ X ∧ edge g u n.
Proof.
  intros (u & [Hu HS]%elem_of_filter)%size_pos_elem_of. by exists u.
Qed.

Lemma preds_in_zero g X n u : preds_in g X n = 0 → edge g u n → u ∉ X.
Proof.
  intros Hz%size_empty_inv Hu HS.
  apply (filter_empty_not_elem_of (λ u, n ∈ get_neighbors g u) X u); done.
Qed.

Lemma zero_lookup l m k :
  foldl (λ m n, <[n := 0%Z]> m) m l !! k = if decide (k ∈ l) then Some 0%Z else m !! k.
Proof.
  revert m. induction l as [|a l IH]; intros m; cbn [foldl].
  - rewrite decide_False; [done|]. by intros ?%elem_of_nil.
  - rewrite IH. destruct (decide (k = a)) as [->|Hne].
    + rewrite lookup_insert_eq. rewrite (decide_True (P:= a ∈ a :: l)) by left.
      by case_decide.
    + rewrite lookup_insert_ne by done. repeat case_decide; set_solver.
Qed.

Lemma for_each_bump (d : Z) l m :
  NoDup l → (∀ x, x ∈ l → x ∈ dom m) →
  ∃ m', for_each (bump d) m l = Ret m' ∧ dom m' = dom m ∧
    ∀ k, m' !! k = (λ z : Z, z + Z.of_nat (ind (k ∈ l)) * d)%Z <$> m !! k.
Proof.
  revert m. induction l as [|a l IH]; intros m Hnd Hdom; cbn [for_each].
  - exists m. split; [done|]. split; [done|]. intros k.
    unfold ind. rewrite decide_False by (by intros ?%elem_of_nil).
    destruct (m !! k); simpl; f_equal; lia.
  - apply NoDup_cons in Hnd as [Ha Hnd].
    assert (is_Some (m !! a)) as [c Hc] by (apply elem_of_dom, Hdom; left).
    unfold bump at 1. rewrite Hc. cbn [obind].
    destruct (IH (<[a:=(c + d)%Z]> m)) as (m' & -> & Hd & Hm'); [done| |].
    { intros x Hx. rewrite dom_insert_L. apply elem_of_union_r, Hdom. by right. }
    exists m'. split; [done|]. split.
    { rewrite Hd, dom_insert_L. apply elem_of_dom_2 in Hc. set_solver. }
    intros k. rewrite Hm'. unfold ind. destruct (decide (k = a)) as [->|Hne].
    + rewrite lookup_insert_eq, Hc. simpl.
      rewrite decide_False by done. rewrite decide_True by left. f_equal. lia.
    + rewrite lookup_insert_ne by done.
      destruct (decide (k ∈ l)) as [Hk|Hk].
      * rewrite decide_True by (by right). done.
      * rewrite decide_False; [done|]. rewrite elem_of_cons. naive_solver.
Qed.

Lemma in_degrees_loop g l m X :
  wf g → NoDup l → (∀ x, x ∈ l → x ∉ X) → dom m = nodes g →
  (∀ k, k ∈ nodes g → m !! k = Some (Z.of_nat (preds_in g X k))) →
  ∃ m', for_each (λ m current_node,
                   for_each (bump 1) m (iter (get_neighbors g current_node))) m l
        = Ret m' ∧ dom m' = nodes g ∧
    ∀ k, k ∈ nodes g → m' !! k = Some (Z.of_nat (preds_in g (X ∪ list_to_set l) k)).
Proof.
  intros Hwf. revert m X. induction l as [|a l IH]; intros m X Hnd HS Hdom Hm; simpl.
  - exists m. split; [done|]. split; [done|]. intros k Hk.
    rewrite Hm by done. by rewrite union_empty_r_L.
  - apply NoDup_cons in Hnd as [Ha Hnd].
    destruct (for_each_bump 1 (iter (get_neighbors g a)) m) as (m1 & -> & Hd1 & Hm1).
    { apply iter_NoDup. }
    { intros x Hx%elem_of_iter. rewrite Hdom. by apply (proj2 Hwf a). }
    simpl. destruct (IH m1 (X ∪ {[a]})) as (m' & -> & Hd & Hm'); [done| | | |].
    + intros x Hx. specialize (HS x). set_solver.
    + by rewrite Hd1.
    + intros k Hk. rewrite Hm1, Hm by done. simpl.
      rewrite preds_in_insert by (apply HS; left). f_equal.
      unfold ind. destruct (decide (k ∈ get_neighbors g a)) as [Hin|Hin].
      * rewrite decide_True by (by apply elem_of_iter). lia.
      * rewrite decide_False by (by rewrite elem_of_iter). lia.
    + exists m'. split; [done|]. split; [done|]. intros k Hk.
      rewrite Hm' by done. do 3 f_equal. set_solver.
Qed.

Lemma in_degrees_spec g :
  wf g →
  ∃ m, in_degrees g = Ret m ∧ dom m = nodes g ∧
    ∀ k, k ∈ nodes g → m !! k = Some (Z.of_nat (preds_in g (nodes g) k)).
Proof.
  intros Hwf. unfold in_degrees.
  destruct (in_degrees_loop g (iter (nodes g))
    (foldl (λ m n, <[n := 0%Z]> m) ∅ (iter (nodes g))) ∅) as (m & Hm & Hd & Hl).
  - done.
  - apply iter_NoDup.
  - set_solver.
  - apply set_eq. intros k. rewrite elem_of_dom, zero_lookup.
    case_decide as Hk; rewrite elem_of_iter in Hk.
    + split; eauto.
    + rewrite lookup_empty. split; [by intros []|done].
  - intros k Hk. rewrite zero_lookup, decide_True by (by apply elem_of_iter).
    by rewrite preds_in_empty.
  - exists m. split; [done|]. split; [done|]. intros k Hk. rewrite Hl by done.
    do 3 f_equal. apply set_eq. intros x.
    rewrite elem_of_union, elem_of_list_to_set, elem_of_iter. set_solver.
Qed.

Lemma initial_queue_loop m l q :
  (∀ x, x ∈ l → x ∈ dom m) →
  for_each (λ queue n, match m !! n with
                | Some c => Ret (if decide (c = 0%Z) then queue ++ [n] else queue)
                | None => Raise (KeyError n)
                end) q l
  = Ret (K:=K) (q ++ filter (λ n, m !! n = Some 0%Z) l).
Proof.
  revert q. induction l as [|a l IH]; intros q Hdom; simpl.
  - by rewrite app_nil_r.
  - assert (is_Some (m !! a)) as [c Hc] by (apply elem_of_dom, Hdom; left).
    rewrite Hc. cbn [obind].
    rewrite IH by (intros; apply Hdom; by right).
    f_equal. rewrite filter_cons. case_decide as Hz.
    + subst. rewrite decide_True by done. by rewrite <-app_assoc.
    + rewrite decide_False; [done|]. congruence.
Qed.

Lemma ind_iff (P Q : Prop) `{!Decision P, !Decision Q} : (P ↔ Q) → ind P = ind Q.
Proof. intros HPQ. unfold ind. repeat case_decide; tauto. Qed.

Lemma ind_True (P : Prop) `{!Decision P} : P → ind P = 1.
Proof. intros. unfold ind. by rewrite decide_True. Qed.

Lemma ind_False (P : Prop) `{!Decision P} : ¬ P → ind P = 0.
Proof. intros. unfold ind. by rewrite decide_False. Qed.

Lemma precedes_app_l l l' u v : precedes l u v → precedes (l ++ l') u v.
Proof.
  intros (i & j & Hi & Hj & Hij). exists i, j.
  split_and!; [by apply lookup_app_l_Some|by apply lookup_app_l_Some|done].
Qed.

Lemma precedes_trans l u v w :
  NoDup l → precedes l u v → precedes l v w → precedes l u w.
Proof.
  intros Hnd (i & j & Hi & Hj & Hij) (j' & k' & Hj' & Hk' & Hjk).
  assert (j = j') as <- by (by eapply NoDup_lookup).
  exists i, k'. split_and!; [done|done|lia].
Qed.

Lemma precedes_irrefl l u : NoDup l → ¬ precedes l u u.
Proof.
  intros Hnd (i & j & Hi & Hj & Hij).
  assert (i = j) by (by eapply NoDup_lookup). lia.
Qed.

Lemma precedes_elem_of l u v : precedes l u v → u ∈ l ∧ v ∈ l.
Proof.
  intros (i & j & Hi & Hj & _). split; by eapply list_elem_of_lookup_2.
Qed.

Lemma NoDup_length_le l X : NoDup l → (∀ x, x ∈ l → x ∈ X) → length l ≤ size X.
Proof.
  intros Hnd Hsub. rewrite <-(size_list_to_set (C:=gset K) l) by done.
  apply subseteq_size. intros x ?%elem_of_list_to_set. auto.
Qed.

Lemma relax_loop g L m q t :
  wf g → NoDup L → (∀ x, x ∈ L → x ∈ nodes g) → kahn_inv g L m q t →
  ∃ m' q', for_each relax (m, q) L = Ret (m', q') ∧ kahn_inv g [] m' q' t.
Proof.
  intros Hwf. revert m q. induction L as [|nb L IH]; intros m q Hnd HL Hinv;
    cbn [for_each].
  - by exists m, q.
  - apply NoDup_cons in Hnd as [Hnb Hnd].
    destruct Hinv as (Hdom & Hm & Htq & Hzero & Hprec).
    assert (nb ∈ nodes g) as Hnbn by (apply HL; left).
    pose proof (Hm nb Hnbn) as Hmnb. rewrite (ind_True (nb ∈ nb :: L)) in Hmnb by left.
    set (p := preds_in g (nodes g ∖ list_to_set t) nb) in *.
    unfold relax at 1, bump. cbn [fst snd]. rewrite Hmnb. cbn [obind].
    rewrite lookup_insert_eq.
    assert (nb ∉ t ++ q) as Hfresh.
    { intros Hin%Hzero. rewrite Hmnb in Hin. injection Hin. lia. }
    apply IH; [done|intros; apply HL; by right|].
    split_and!.
    + rewrite dom_insert_L. apply elem_of_dom_2 in Hmnb. set_solver.
    + intros n Hn. destruct (decide (n = nb)) as [->|Hne].
      * rewrite lookup_insert_eq. rewrite (ind_False (nb ∈ L)) by done.
        f_equal. fold p. lia.
      * rewrite lookup_insert_ne by done. rewrite Hm by done.
        do 3 f_equal. apply ind_iff. rewrite elem_of_cons. naive_solver.
    + case_decide; [|done]. rewrite app_assoc. apply NoDup_app.
      split_and!; [done| |apply NoDup_singleton].
      intros x Hx ->%list_elem_of_singleton. done.
    + intros n. destruct (decide (n = nb)) as [->|Hne].
      * rewrite lookup_insert_eq. case_decide as Hz.
        -- split; [done|]. intros _. rewrite app_assoc. set_solver.
        -- split; [|done]. intros Hin. done.
      * rewrite lookup_insert_ne by done. rewrite <-Hzero.
        case_decide; [|done]. rewrite app_assoc, (elem_of_app (t ++ q)).
        rewrite list_elem_of_singleton. naive_solver.
    + intros u v Huv. case_decide as Hz; [|by apply Hprec].
      rewrite app_assoc. intros [Hv|Hv%list_elem_of_singleton]%elem_of_app.
      * apply precedes_app_l. by apply Hprec.
      * subst v. assert (p = 0) as Hp by (injection Hz; lia).
        assert (u ∈ t) as (i & Hi)%list_elem_of_lookup_1.
        { pose proof (preds_in_zero _ _ _ _ Hp Huv) as Hu.
          apply edge_dom in Huv. rewrite (proj1 Hwf) in Huv.
          destruct (decide (u ∈ t)); [done|]. exfalso. apply Hu.
          apply elem_of_difference. split; [done|]. by rewrite elem_of_list_to_set. }
        exists i, (length (t ++ q)). split_and!.
        -- apply lookup_app_l_Some. by apply lookup_app_l_Some.
        -- rewrite lookup_app_r by done. by rewrite Nat.sub_diag.
        -- apply lookup_lt_Some in Hi. rewrite length_app. lia.
Qed.

Lemma kahn_pop g m c q t :
  kahn_inv g [] m (c :: q) t →
  kahn_inv g (iter (get_neighbors g c)) m q (t ++ [c]).
Proof.
  intros (Hdom & Hm & Htq & Hzero & Hprec).
  assert ((t ++ [c]) ++ q = t ++ c :: q) as Heq by (by rewrite <-app_assoc).
  assert (c ∈ nodes g) as Hc.
  { rewrite <-Hdom. apply elem_of_dom. exists 0%Z. apply Hzero. set_solver. }
  assert (c ∉ t) as Hct.
  { apply NoDup_app in Htq as (_ & Hd & _). intros Hin. apply (Hd c Hin). left. }
  split_and!; rewrite ?Heq; try done.
  intros n Hn. rewrite Hm by done. do 2 f_equal.
  rewrite (ind_False (n ∈ [])) by (by intros ?%elem_of_nil).
  rewrite (preds_in_remove g _ c n).
  - rewrite Nat.add_0_r. f_equal.
    + f_equal. apply set_eq. intros x.
      rewrite !elem_of_difference, !elem_of_list_to_set, elem_of_app,
        list_elem_of_singleton, elem_of_singleton. naive_solver.
    + apply ind_iff. by rewrite elem_of_iter.
  - apply elem_of_difference. split; [done|]. by rewrite elem_of_list_to_set.
Qed.

Lemma top_sort_loop_spec g fuel m q t :
  wf g → kahn_inv g [] m q t → size (nodes g) < fuel + length t →
  ∃ r m', top_sort_loop fuel g m q t = Ret r ∧ kahn_inv g [] m' [] r.
Proof.
  intros Hwf. revert m q t. induction fuel as [|fuel IH]; intros m q t Hinv Hfuel.
  - exfalso. destruct Hinv as (Hdom & _ & Htq & Hzero & _).
    assert (length (t ++ q) ≤ size (nodes g)) as Hle.
    { apply NoDup_length_le; [done|].
      intros x Hx%Hzero. rewrite <-Hdom. by apply elem_of_dom_2 in Hx. }
    rewrite length_app in Hle. simpl in Hfuel. lia.
  - cbn [top_sort_loop]. destruct q as [|c q]; [by exists t, m|].
    pose proof Hinv as (Hdom & _ & Htq & Hzero & _).
    apply kahn_pop in Hinv.
    destruct (relax_loop g (iter (get_neighbors g c)) m q (t ++ [c]))
      as (m' & q' & -> & Hinv'); [done|apply iter_NoDup| |done|].
    { intros x Hx%elem_of_iter. by apply (proj2 Hwf c). }
    cbn [obind fst snd]. apply IH; [done|].
    rewrite length_app. simpl. lia.
Qed.

(** What [top_sort] returns on any well-formed graph, cyclic or not. *)
Theorem top_sort_spec g :
  wf g →
  ∃ r, top_sort g = Ret r ∧ NoDup r ∧ (∀ x, x ∈ r → x ∈ nodes g) ∧
    (∀ u v, edge g u v → v ∈ r → precedes r u v) ∧
    (∀ n, n ∈ nodes g → n ∉ r → ∃ u, u ∈ nodes g ∧ (u ∉ r) ∧ edge g u n).
Proof.
  intros Hwf. unfold top_sort.
  destruct (in_degrees_spec g Hwf) as (m & -> & Hdom & Hm). cbn [obind].
  unfold initial_queue. rewrite initial_queue_loop.
  2:{ intros x Hx%elem_of_iter. by rewrite Hdom. }
  cbn [obind app].
  destruct (top_sort_loop_spec g (S (size (nodes g))) m
              (filter (λ n, m !! n = Some 0%Z) (iter (nodes g))) [])
    as (r & m' & -> & Hinv); [done| |simpl; lia|].
  { split_and!; cbn [app].
    - done.
    - intros n Hn. rewrite Hm by done. do 2 f_equal.
      rewrite (ind_False (n ∈ [])) by (by intros ?%elem_of_nil).
      rewrite Nat.add_0_r. f_equal. set_solver.
    - apply NoDup_filter, iter_NoDup.
    - intros n. rewrite list_elem_of_filter, elem_of_iter. split; [tauto|].
      intros Hn. split; [done|]. rewrite <-Hdom. by apply elem_of_dom_2 in Hn.
    - intros u v Huv [Hv Hvn]%list_elem_of_filter. exfalso.
      apply elem_of_iter in Hvn. rewrite Hm in Hv by done.
      assert (preds_in g (nodes g) v = 0) as Hp by (injection Hv; lia).
      apply (preds_in_zero _ _ _ _ Hp Huv).
      rewrite <-(proj1 Hwf). by eapply edge_dom. }
  destruct Hinv as (Hdom' & Hm' & Hnd & Hzero & Hprec).
  rewrite app_nil_r in *.
  exists r. split_and!; [done|done| |done|].
  - intros x Hx%Hzero. rewrite <-Hdom'. by apply elem_of_dom_2 in Hx.
  - intros n Hn Hnr. pose proof (Hm' n Hn) as Hmn.
    rewrite (ind_False (n ∈ [])) in Hmn by (by intros ?%elem_of_nil).
    destruct (preds_in_pos g (nodes g ∖ list_to_set r) n) as (u & Hu & Hun).
    { destruct (preds_in g (nodes g ∖ list_to_set r) n); [|lia].
      exfalso. by apply Hnr, Hzero. }
    exists u. apply elem_of_difference in Hu as [Hu1 Hu2].
    rewrite elem_of_list_to_set in Hu2. done.
Qed.

End kahn_theory.

(** ** [top_sort]: the bound of the loop suffices on every state *)

Section fuel_theory.
Context `{Countable K} `{!IterOrder K}.
Implicit Types (g : digraph K) (u v n k c : K) (X V : gset K) (q t l r : list K)
  (m : gmap K Z).

Lemma elem_of_waiting m k : k ∈ waiting m ↔ ∃ z, m !! k = Some z ∧ (0 < z)%Z.
Proof.
  unfold waiting. rewrite elem_of_dom. unfold is_Some.
  setoid_rewrite map_lookup_filter_Some. naive_solver.
Qed.

Lemma for_each_inv {A St} (P : St → Prop) (body : St → A → outcome K St) s s' (l : list A) :
  (∀ s a s', body s a = Ret s' → P s → P s') →
  for_each body s l = Ret s' → P s → P s'.
Proof.
  intros Hbody. revert s. induction l as [|a l IH]; intros s; cbn [for_each].
  - by intros [= ->].
  - destruct (body s a) as [s1| |] eqn:E; cbn [obind]; [|done..].
    intros Hl Hs. eapply IH; [done|]. by eapply Hbody.
Qed.

Lemma for_each_fuel {A St} (body : St → A → outcome K St) s (l : list A) :
  (∀ s a, body s a ≠ OutOfFuel) → for_each body s l ≠ OutOfFuel.
Proof.
  intros Hbody. revert s. induction l as [|a l IH]; intros s; cbn [for_each]; [done|].
  specialize (Hbody s a). destruct (body s a); cbn [obind]; [apply IH|done|done].
Qed.

Lemma bump_fuel d m k : bump d m k ≠ OutOfFuel.
Proof. unfold bump. by destruct (m !! k). Qed.

Lemma bump_dom d m k m' : bump d m k = Ret m' → dom m' = dom m.
Proof.
  unfold bump. destruct (m !! k) as [z|] eqn:E; [|done]. intros [= <-].
  rewrite dom_insert_L. apply elem_of_dom_2 in E. set_solver.
Qed.

Lemma relax_fuel st k : relax st k ≠ OutOfFuel.
Proof. unfold relax, bump. by destruct (st.1 !! k). Qed.

Lemma relax_measure st k st' :
  relax st k = Ret st' →
  length st'.2 + size (waiting st'.1) ≤ length st.2 + size (waiting st.1).
Proof.
  destruct st as [m q]. unfold relax, bump. cbn [fst snd].
  destruct (m !! k) as [z|] eqn:E; [|done]. cbn [obind]. intros [= <-]. cbn [fst snd].
  rewrite lookup_insert_eq.
  assert (∀ x, x ∈ waiting (<[k:=(z + -1)%Z]> m) →
               x ∈ waiting m ∧ (x = k → z ≠ 1%Z)) as Hsub.
  { intros x (y & Hy & Hpos)%elem_of_waiting. destruct (decide (x = k)) as [->|Hne].
    - rewrite lookup_insert_eq in Hy. injection Hy as <-. split; [|lia].
      apply elem_of_waiting. exists z. split; [done|lia].
    - rewrite lookup_insert_ne in Hy by done. split; [|done].
      apply elem_of_waiting. eauto. }
  case_decide as Hz.
  - assert (z = 1%Z) as -> by (injection Hz; lia).
    rewrite length_app. simpl.
    rewrite (size_remove (waiting m) k).
    2:{ apply elem_of_waiting. exists 1%Z. split; [done|lia]. }
    assert (size (waiting (<[k:=(1 + -1)%Z]> m)) ≤ size (waiting m ∖ {[k]})); [|lia].
    apply subseteq_size. intros x [Hx Hk]%Hsub. apply elem_of_difference.
    split; [done|]. intros ->%elem_of_singleton. by apply Hk.
  - assert (size (waiting (<[k:=(z + -1)%Z]> m)) ≤ size (waiting m)); [|lia].
    apply subseteq_size. intros x [Hx _]%Hsub. done.
Qed.

Lemma top_sort_loop_fuel g fuel m q t :
  length q + size (waiting m) < fuel → top_sort_loop fuel g m q t ≠ OutOfFuel.
Proof.
  revert m q t. induction fuel as [|fuel IH]; intros m q t Hfuel; [lia|].
  cbn [top_sort_loop]. destruct q as [|c q]; [done|].
  destruct (for_each relax (m, q) (iter (get_neighbors g c))) as [st| |] eqn:E;
    cbn [obind]; [|done|by apply for_each_fuel in E; [|apply relax_fuel]].
  apply IH.
  apply (for_each_inv (λ st, length st.2 + size (waiting st.1)
                              ≤ length q + size (waiting m))) in E.
  - simpl in Hfuel. lia.
  - intros s a s' Hs%relax_measure. lia.
  - done.
Qed.

(** Whatever the state, the bound of the loop of [top_sort] is large enough:
    the call returns a list or raises. *)
Lemma top_sort_fuel g : top_sort g ≠ OutOfFuel.
Proof.
  unfold top_sort.
  destruct (in_degrees g) as [m| |] eqn:Em; cbn [obind]; [|done|].
  2:{ unfold in_degrees in Em. apply for_each_fuel in Em; [done|].
      intros s a. apply for_each_fuel, bump_fuel. }
  assert (dom m = nodes g) as Hdom.
  { unfold in_degrees in Em.
    apply (for_each_inv (λ m, dom m = nodes g)) in Em; [done| |].
    - intros s a s' Hs Hd. rewrite <-Hd.
      apply (for_each_inv (λ m, dom m = dom s)) in Hs; [done| |done].
      intros s1 b s2 Hb%bump_dom. congruence.
    - apply set_eq. intros k. rewrite elem_of_dom, zero_lookup.
      case_decide as Hk; rewrite elem_of_iter in Hk.
      + split; eauto.
      + rewrite lookup_empty. split; [by intros []|done]. }
  unfold initial_queue. rewrite initial_queue_loop.
  2:{ intros x Hx%elem_of_iter. by rewrite Hdom. }
  cbn [obind app]. apply top_sort_loop_fuel.
  set (q0 := filter (λ n, m !! n = Some 0%Z) (iter (nodes g))).
  assert (NoDup q0) as Hnd by apply NoDup_filter, iter_NoDup.
  rewrite <-(size_list_to_set (C:=gset K) q0) by done.
  rewrite <-size_union.
  - apply Nat.lt_succ_r, subseteq_size. intros x [Hx|Hx]%elem_of_union.
    + apply elem_of_list_to_set, list_elem_of_filter in Hx as [_ Hx].
      by apply elem_of_iter in Hx.
    + apply elem_of_waiting in Hx as (z & Hz & _). rewrite <-Hdom.
      by apply elem_of_dom_2 in Hz.
  - intros x [Hx _]%elem_of_list_to_set%list_elem_of_filter
             (z & Hz & Hpos)%elem_of_waiting.
    rewrite Hx in Hz. injection Hz as <-. lia.
Qed.

End fuel_theory.

(** ** [top_sort] on acyclic and on cyclic graphs *)

Section sort_theory.
Context `{Countable K} `{!IterOrder K}.
Implicit Types (g : digraph K) (u v n k c : K) (X V : gset K) (q t l r : list K).

Lemma tc_subrel (E E' : relation K) x y :
  (∀ a b, E' a b → tc E a b) → tc E' x y → tc E x y.
Proof.
  intros Hsub Hp. induction Hp as [x y Hxy|x y z Hxy _ IH]; [by apply Hsub|].
  etrans; [by apply Hsub|done].
Qed.

(** A non-empty finite set in which every member has a predecessor in the
    set contains a cycle. *)
Lemma sourceless_cycle (E : relation K) (X : gset K) :
  X ≠ ∅ → (∀ x, x ∈ X → ∃ y, y ∈ X ∧ E y x) → ∃ x, tc E x x.
Proof.
  revert E. induction X as [|x X Hx IH] using set_ind_L; intros E Hne Hpred; [done|].
  destruct (Hpred x) as (w & Hw & Hwx); [set_solver|].
  destruct (decide (w = x)) as [->|Hwne]; [exists x; by apply tc_once|].
  assert (w ∈ X) as HwX by set_solver.
  destruct (IH (λ y z, E y z ∨ (E y x ∧ E x z))) as (c & Hc).
  - set_solver.
  - intros z Hz. destruct (Hpred z) as (y & Hy & Hyz); [set_solver|].
    destruct (decide (y = x)) as [->|Hyne].
    + exists w. split; [done|]. right. done.
    + exists y. split; [set_solver|]. by left.
  - exists c. eapply tc_subrel; [|done]. simpl.
    intros a b [Hab|[Hax Hxb]]; [by apply tc_once|].
    eapply tc_l; [done|]. by apply tc_once.
Qed.

Lemma tc_precedes g r u v :
  NoDup r → (∀ u v, edge g u v → v ∈ r → precedes r u v) →
  tc (edge g) u v → v ∈ r → precedes r u v.
Proof.
  intros Hnd Hprec Hp. induction Hp as [x y Hxy|x y z Hxy _ IH]; [by apply Hprec|].
  intros Hz. specialize (IH Hz). eapply precedes_trans; [done| |done].
  apply Hprec; [done|]. by apply precedes_elem_of in IH as [? _].
Qed.

Lemma tc_edge_dom g u v : tc (edge g) u v → u ∈ dom (edges g).
Proof. intros [?? Huv|??? Huv _]; by eapply edge_dom. Qed.

Lemma top_sort_acyclic_spec g :
  wf g → acyclic g →
  ∃ r, top_sort g = Ret r ∧ NoDup r ∧ (∀ n, n ∈ r ↔ n ∈ nodes g) ∧
    (∀ u v, edge g u v → precedes r u v).
Proof.
  intros Hwf Hacyc. destruct (top_sort_spec g Hwf) as (r & Hr & Hnd & Hsub & Hprec & Hrest).
  assert (∀ n, n ∈ nodes g → n ∈ r) as Hall.
  { intros n Hn. destruct (decide (n ∈ r)) as [|Hnr]; [done|]. exfalso.
    destruct (sourceless_cycle (edge g) (nodes g ∖ list_to_set r)) as (c & Hc).
    - intros Hempty. assert (n ∈ nodes g ∖ list_to_set r) as Hin; [|set_solver].
      apply elem_of_difference. by rewrite elem_of_list_to_set.
    - intros x [Hx Hxr]%elem_of_difference. rewrite elem_of_list_to_set in Hxr.
      destruct (Hrest x Hx Hxr) as (y & Hy & Hyr & Hyx). exists y. split; [|done].
      apply elem_of_difference. by rewrite elem_of_list_to_set.
    - by apply (Hacyc c). }
  exists r. split_and!; [done|done| |].
  - intros n. split; auto.
  - intros u v Huv. apply Hprec; [done|]. by apply Hall, (proj2 Hwf u).
Qed.

Lemma top_sort_cyclic_spec g :
  wf g → (∃ n, tc (edge g) n n) →
  ∃ r, top_sort g = Ret r ∧ length r < size (nodes g) ∧
    (∀ c x, tc (edge g) c c → rtc (edge g) c x → x ∉ r).
Proof.
  intros Hwf [n Hn]. destruct (top_sort_spec g Hwf) as (r & Hr & Hnd & Hsub & Hprec & _).
  assert (∀ c x, tc (edge g) c c → rtc (edge g) c x → x ∉ r) as Homit.
  { intros c x Hc Hcx Hx.
    assert (c ∈ r) as Hcr.
    { apply rtc_tc in Hcx as [->|Hcx]; [done|].
      by apply (tc_precedes g r c x) in Hcx as [? _]%precedes_elem_of. }
    apply (precedes_irrefl r c); [done|]. by apply (tc_precedes g). }
  exists r. split_and!; [done| |done].
  rewrite <-(size_list_to_set (C:=gset K) r) by done.
  apply subset_size. split.
  - intros x ?%elem_of_list_to_set. auto.
  - intros Hsub'. apply (Homit n n); [done|done|].
    apply (elem_of_list_to_set (C:=gset K)), Hsub'.
    rewrite <-(proj1 Hwf). by eapply tc_edge_dom.
Qed.

Lemma wf_run_base (ops : list (op K)) : wf (run_base ops).
Proof. apply wf_foldl; [apply wf_step_base|apply wf_init]. Qed.

Lemma wf_run_dag (ops : list (op K)) : wf (run_dag ops).
Proof. apply wf_foldl; [apply wf_step_dag|apply wf_init]. Qed.

Lemma cycle3_edges (a b c : K) :
  edge (cycle3 a b c) a b ∧ edge (cycle3 a b c) b c ∧ edge (cycle3 a b c) c a.
Proof.
  unfold cycle3, run_base. cbn [foldl step_base].
  rewrite !edge_add_edge. naive_solver.
Qed.

Lemma cycle3_nodes (a b c : K) x :
  x ∈ nodes (cycle3 a b c) → x = a ∨ x = b ∨ x = c.
Proof.
  unfold cycle3, run_base. cbn [foldl step_base].
  rewrite !nodes_add_edge. cbn. set_solver.
Qed.

Lemma top_sort_cycle3 (a b c : K) : top_sort (cycle3 a b c) = Ret [].
Proof.
  destruct (cycle3_edges a b c) as (Hab & Hbc & Hca).
  assert (tc (edge (cycle3 a b c)) a a) as Ha.
  { eapply tc_l; [done|]. eapply tc_l; [done|]. by apply tc_once. }
  destruct (top_sort_cyclic_spec (cycle3 a b c)) as (r & Hr & _ & Homit).
  { apply wf_run_base. }
  { by exists a. }
  destruct (top_sort_spec (cycle3 a b c)) as (r' & Hr' & _ & Hsub & _).
  { apply wf_run_base. }
  rewrite Hr. f_equal. rewrite Hr in Hr'. injection Hr' as <-.
  destruct r as [|x r]; [done|]. exfalso.
  apply (Homit a x Ha); [|left].
  destruct (cycle3_nodes a b c x) as [->|[->| ->]]; [apply Hsub; left|done| |].
  - by apply rtc_once.
  - eapply rtc_l; [done|]. by apply rtc_once.
Qed.

End sort_theory.

(** ** [dfs]: termination and the set of yielded nodes *)

Section dfs_theory.
Context `{Countable K} `{!IterOrder K}.
Implicit Types (g : digraph K) (u v n k c start : K) (X V : gset K)
  (q t l r stack out : list K).

Lemma length_iter X : length (iter X) = size X.
Proof.
  unfold size, set_size. simpl. apply Permutation_length, NoDup_Permutation.
  - apply iter_NoDup.
  - apply NoDup_elements.
  - intros x. by rewrite elem_of_iter, elem_of_elements.
Qed.

Lemma push_unvisited_eq V stack l :
  push_unvisited V stack l = reverse (filter (λ x, x ∉ V) l) ++ stack.
Proof.
  unfold push_unvisited. revert stack. induction l as [|a l IH]; intros stack;
    cbn [foldl]; [done|].
  rewrite IH. case_decide as Ha.
  - rewrite filter_cons_False; [done|]. by intros ?.
  - rewrite filter_cons_True by done. by rewrite reverse_cons, <-app_assoc.
Qed.

Lemma elem_of_push_unvisited V stack l x :
  x ∈ push_unvisited V stack l ↔ (x ∈ l ∧ x ∉ V) ∨ x ∈ stack.
Proof.
  rewrite push_unvisited_eq, elem_of_app, elem_of_reverse, list_elem_of_filter.
  tauto.
Qed.

Lemma length_push_unvisited V stack l :
  length (push_unvisited V stack l) ≤ length l + length stack.
Proof.
  rewrite push_unvisited_eq, length_app, length_reverse.
  pose proof (length_filter (λ x, x ∉ V) l). lia.
Qed.

Lemma pending_visit g V c :
  c ∉ V → pending g V = size (get_neighbors g c) + pending g (V ∪ {[c]}).
Proof.
  intros Hc. unfold pending. destruct (decide (c ∈ dom (edges g))) as [Hd|Hd].
  - assert (dom (edges g) ∖ V = {[c]} ∪ dom (edges g) ∖ (V ∪ {[c]})) as ->.
    { apply set_eq. intros y. destruct (decide (y = c)) as [->|]; set_solver. }
    rewrite elements_union_singleton by set_solver. done.
  - assert (dom (edges g) ∖ (V ∪ {[c]}) = dom (edges g) ∖ V) as -> by set_solver.
    apply not_elem_of_dom in Hd.
    assert (get_neighbors g c = ∅) as -> by (unfold get_neighbors; by rewrite Hd).
    by rewrite size_empty.
Qed.

Lemma dfs_loop_spec g fuel stack V :
  length stack + pending g V < fuel →
  ∃ out, dfs_loop fuel g stack V = Ret out ∧ NoDup out ∧
    (∀ x, x ∈ out → x ∉ V) ∧
    (∀ x, x ∈ out → ∃ s, s ∈ stack ∧ rtc (edge g) s x) ∧
    (∀ s, s ∈ stack → s ∈ V ∨ s ∈ out) ∧
    (∀ x y, x ∈ out → edge g x y → y ∈ V ∨ y ∈ out).
Proof.
  revert stack V. induction fuel as [|fuel IH]; intros stack V Hfuel; [lia|].
  cbn [dfs_loop]. destruct stack as [|c stack].
  - exists []. split_and!; [done|apply NoDup_nil_2|..];
      intros ? **; by exfalso; eapply elem_of_nil.
  - case_decide as Hc.
    + destruct (IH stack V) as (out & -> & Hnd & Hav & Hreach & Hst & Hcl).
      { simpl in Hfuel. lia. }
      exists out. split_and!; [done|done|done| | |done].
      * intros x (s & Hs & Hsx)%Hreach. exists s. split; [by right|done].
      * intros s [->|Hs]%elem_of_cons; [by left|by apply Hst].
    + set (V' := V ∪ {[c]}).
      set (stack' := push_unvisited V' stack (reverse (iter (get_neighbors g c)))).
      destruct (IH stack' V') as (out & -> & Hnd & Hav & Hreach & Hst & Hcl).
      { pose proof (length_push_unvisited V' stack
                      (reverse (iter (get_neighbors g c)))) as Hlen.
        rewrite length_reverse, length_iter in Hlen. fold stack' in Hlen.
        rewrite (pending_visit g V c) in Hfuel by done. fold V' in Hfuel.
        simpl in Hfuel. lia. }
      exists (c :: out). split_and!.
      * done.
      * apply NoDup_cons. split; [|done]. intros Hin%Hav. apply Hin.
        unfold V'. set_solver.
      * intros x [->|Hx%Hav]%elem_of_cons; [done|]. unfold V' in Hx. set_solver.
      * intros x [->|(s & Hs & Hsx)%Hreach]%elem_of_cons.
        { exists c. split; [left|done]. }
        apply elem_of_push_unvisited in Hs as [[Hs _]|Hs].
        -- exists c. split; [left|]. eapply rtc_l; [|done].
           by apply elem_of_reverse, elem_of_iter in Hs.
        -- exists s. split; [by right|done].
      * intros s [->|Hs]%elem_of_cons; [right; left|].
        destruct (Hst s) as [Hs'|Hs'].
        { apply elem_of_push_unvisited. by right. }
        -- unfold V' in Hs'. apply elem_of_union in Hs' as [?|Heq%elem_of_singleton];
             [by left|subst; right; left].
        -- right. by right.
      * assert (∀ y, y ∈ V' ∨ y ∈ out → y ∈ V ∨ y ∈ c :: out) as Hweak.
        { intros y [Hy|Hy]; [|right; by right]. unfold V' in Hy.
          apply elem_of_union in Hy as [?|Heq%elem_of_singleton];
            [by left|subst; right; left]. }
        intros x y [->|Hx]%elem_of_cons Hxy; apply Hweak; [|by eapply Hcl].
        destruct (decide (y ∈ V')) as [|Hy]; [by left|].
        apply Hst, elem_of_push_unvisited. left. split; [|done].
        by apply elem_of_reverse, elem_of_iter.
Qed.

Lemma dfs_absent g start : start ∉ nodes g → dfs g start = Ret [].
Proof. intros Hs. unfold dfs. by rewrite decide_False. Qed.

Lemma dfs_loop_visit fuel g c stack V :
  c ∉ V →
  dfs_loop (S fuel) g (c :: stack) V =
  omap (cons c)
    (dfs_loop fuel g
       (push_unvisited (V ∪ {[c]}) stack (reverse (iter (get_neighbors g c))))
       (V ∪ {[c]})).
Proof. intros Hc. cbn [dfs_loop]. by rewrite decide_False. Qed.

Lemma dfs_present g start :
  start ∈ nodes g →
  ∃ rest, dfs g start = Ret (start :: rest) ∧ NoDup (start :: rest) ∧
    ∀ x, x ∈ start :: rest ↔ rtc (edge g) start x.
Proof.
  intros Hs. unfold dfs. rewrite decide_True by done.
  destruct (dfs_loop_spec g (S (S (pending g ∅))) [start] ∅)
    as (out & Hout & Hnd & _ & Hreach & Hst & Hcl); [simpl; lia|].
  rewrite Hout. rewrite dfs_loop_visit in Hout by set_solver.
  destruct (dfs_loop _ g _ _) as [rest| |]; [|done..].
  injection Hout as <-. exists rest. split_and!; [done|done|].
  intros x. split.
  - intros (s & ->%list_elem_of_singleton & Hsx)%Hreach. done.
  - revert x. apply rtc_ind_r; [left|]. intros a b _ Hab IHp.
    destruct (Hcl a b IHp Hab) as [?|?]; [set_solver|done].
Qed.

Lemma filter_eq_absent l (x : K) : x ∉ l → filter (λ y, y = x) l = [].
Proof.
  induction l as [|a l IH]; intros Hx; [done|].
  apply not_elem_of_cons in Hx as [Hne Hx].
  rewrite filter_cons_False; [by apply IH|]. intros ->. done.
Qed.

Lemma NoDup_count_one l (x : K) :
  NoDup l → x ∈ l → length (filter (λ y, y = x) l) = 1.
Proof.
  induction l as [|a l IH]; intros Hnd Hx; [by apply elem_of_nil in Hx|].
  apply NoDup_cons in Hnd as [Ha Hnd]. apply elem_of_cons in Hx as [->|Hx].
  - rewrite filter_cons_True by done. by rewrite filter_eq_absent.
  - rewrite filter_cons_False; [by apply IH|]. intros ->. done.
Qed.

Lemma dfs_diamond (a b c d : K) :
  ∃ out, dfs (diamond a b c d) a = Ret out ∧ length (filter (λ y, y = d) out) = 1.
Proof.
  destruct (dfs_present (diamond a b c d) a) as (rest & Hr & Hnd & Hreach).
  { unfold diamond, run_base. cbn [foldl step_base].
    rewrite !nodes_add_edge. set_solver. }
  exists (a :: rest). split; [done|]. apply NoDup_count_one; [done|].
  apply Hreach. unfold diamond, run_base. cbn [foldl step_base].
  eapply rtc_l; [|apply rtc_once]; rewrite !edge_add_edge.
  - left. left. left. right. done.
  - left. right. done.
Qed.

End dfs_theory.

(** ** The object model simulates the graph model; aliasing *)

Section heap_theory.
Context `{Countable K} `{!IterOrder K}.
Implicit Types (σ : hgraph K) (h : gmap loc (gset K)) (l r : loc) (n u v x : K).

Lemma deref_update_eq h l f : l ∈ dom h → deref (update l f h) l = f (deref h l).
Proof.
  intros [s Hs]%elem_of_dom. unfold deref, update.
  by rewrite lookup_alter_eq, Hs.
Qed.

Lemma deref_update_ne h l l' f : l ≠ l' → deref (update l f h) l' = deref h l'.
Proof. intros Hne. unfold deref, update. by rewrite lookup_alter_ne. Qed.

Lemma dom_update h l f : dom (update l f h) = dom h.
Proof. apply dom_alter_L. Qed.

Lemma deref_set_add_eq h l x :
  l ∈ dom h → deref (set_add l x h) l = deref h l ∪ {[x]}.
Proof. intros Hl. unfold set_add. by rewrite deref_update_eq. Qed.

Lemma deref_set_add_ne h l l' x : l ≠ l' → deref (set_add l x h) l' = deref h l'.
Proof. apply deref_update_ne. Qed.

Lemma dom_set_add h l x : dom (set_add l x h) = dom h.
Proof. apply dom_update. Qed.

Lemma deref_insert_ne h l l' (s : gset K) :
  l ≠ l' → deref (<[l := s]> h) l' = deref h l'.
Proof. intros Hne. unfold deref. by rewrite lookup_insert_ne. Qed.

Lemma deref_insert_eq h l (s : gset K) : deref (<[l := s]> h) l = s.
Proof. unfold deref. by rewrite lookup_insert_eq. Qed.

Lemma fresh_not_dom h l : l ∈ dom h → fresh (dom h) ≠ l.
Proof. intros Hl <-. by apply (is_fresh (dom h)). Qed.

Lemma view_edges_lookup σ n :
  edges (view σ) !! n = deref (heap σ) <$> edges_tbl σ !! n.
Proof. unfold view. simpl. apply lookup_fmap. Qed.

Lemma get_neighbors_view σ n :
  get_neighbors (view σ) n =
  match edges_tbl σ !! n with Some l => deref (heap σ) l | None => ∅ end.
Proof.
  unfold get_neighbors. rewrite view_edges_lookup. by destruct (edges_tbl σ !! n).
Qed.

Lemma h_add_node_sim n σ :
  h_wf σ →
  h_wf (h_add_node n σ) ∧ view (h_add_node n σ) = state_after (add_node n) (view σ).
Proof.
  intros (Hn & Ht & Hinj). unfold state_after. rewrite add_node_eq. cbn [snd].
  unfold h_add_node, touch. rewrite view_edges_lookup.
  destruct (edges_tbl σ !! n) as [ln|] eqn:En; simpl.
  - split.
    + split_and!; simpl; rewrite ?dom_set_add; done.
    + unfold view; simpl. f_equal.
      * by apply deref_set_add_eq.
      * apply map_eq. intros k. rewrite !lookup_fmap.
        destruct (edges_tbl σ !! k) as [lk|] eqn:Ek; simpl; [|done].
        f_equal. apply deref_set_add_ne. destruct (Ht k lk Ek) as [_ ?]. done.
  - set (h := set_add (nodes_ref σ) n (heap σ)).
    assert (dom h = dom (heap σ)) as Hdh by apply dom_set_add.
    split.
    + split_and!; simpl.
      * rewrite dom_insert_L. apply elem_of_union_r. by rewrite Hdh.
      * intros k l. rewrite dom_insert_L.
        destruct (decide (k = n)) as [->|Hk].
        -- rewrite lookup_insert_eq. intros [= <-]. split; [set_solver|].
           apply fresh_not_dom. by rewrite Hdh.
        -- rewrite lookup_insert_ne by done. intros [? ?]%Ht. split; [|done].
           apply elem_of_union_r. by rewrite Hdh.
      * intros k k' l.
        assert (∀ k0, edges_tbl σ !! k0 = Some (fresh (dom h)) → False) as Hfr.
        { intros k0 [Hin _]%Ht. rewrite <-Hdh in Hin. by apply (is_fresh (dom h)). }
        destruct (decide (k = n)) as [->|Hk]; destruct (decide (k' = n)) as [->|Hk'];
          rewrite ?lookup_insert_eq, ?lookup_insert_ne by done; try done.
        -- intros [= <-] Hk2. by apply Hfr in Hk2.
        -- intros Hk1 [= <-]. by apply Hfr in Hk1.
        -- apply Hinj.
    + unfold view; simpl. f_equal.
      * rewrite deref_insert_ne by (apply fresh_not_dom; by rewrite Hdh).
        by apply deref_set_add_eq.
      * rewrite fmap_insert, deref_insert_eq. f_equal.
        apply map_eq. intros k. rewrite !lookup_fmap.
        destruct (edges_tbl σ !! k) as [lk|] eqn:Ek; simpl; [|done].
        destruct (Ht k lk Ek) as [? ?]. f_equal.
        rewrite deref_insert_ne by (apply fresh_not_dom; by rewrite Hdh).
        by apply deref_set_add_ne.
Qed.

Lemma view_frame h h' nr (tbl : gmap K loc) :
  deref h' nr = deref h nr →
  (∀ k l, tbl !! k = Some l → deref h' l = deref h l) →
  view (HGraph h' nr tbl) = view (HGraph h nr tbl).
Proof.
  intros Hn Ht. unfold view; simpl. f_equal; [done|].
  apply map_eq. intros k. rewrite !lookup_fmap.
  destruct (tbl !! k) as [lk|] eqn:Ek; simpl; [|done]. f_equal. by eapply Ht.
Qed.

Lemma h_init_sim : h_wf (h_init : hgraph K) ∧ view (h_init : hgraph K) = init.
Proof.
  unfold h_init, alloc. split.
  - split_and!; simpl.
    + rewrite dom_insert_L. set_solver.
    + intros k l. by rewrite lookup_empty.
    + intros k k' l. by rewrite lookup_empty.
  - unfold view, init; simpl. by rewrite deref_insert_eq, fmap_empty.
Qed.

(** Adding to the adjacency set of [u] through its location. *)
Lemma view_caller_mutates_stored σ u l f :
  h_wf σ → edges_tbl σ !! u = Some l →
  h_wf (caller_mutates l f σ) ∧
  view (caller_mutates l f σ) =
  Digraph (nodes (view σ)) (<[u := f (get_neighbors (view σ) u)]> (edges (view σ))).
Proof.
  intros (Hn & Ht & Hinj) Hu. destruct (Ht u l Hu) as [Hl Hln]. split.
  - split_and!; simpl; rewrite ?dom_update; done.
  - rewrite get_neighbors_view, Hu. unfold view, caller_mutates; simpl. f_equal.
    + by apply deref_update_ne.
    + apply map_eq. intros k. rewrite lookup_fmap.
      destruct (decide (k = u)) as [->|Hk].
      * rewrite lookup_insert_eq, Hu. simpl. f_equal. by apply deref_update_eq.
      * rewrite lookup_insert_ne by done. rewrite lookup_fmap.
        destruct (edges_tbl σ !! k) as [lk|] eqn:Ek; simpl; [|done].
        f_equal. apply deref_update_ne. intros <-. apply Hk. by eapply Hinj.
Qed.

Lemma add_edge_steps u v (g : digraph K) :
  add_edge u v g =
  edges_add u v (state_after (add_node v) (state_after (add_node u) g)).
Proof. unfold add_edge, mbind, state_after. by rewrite !add_node_eq. Qed.

Lemma h_add_edge_sim u v σ :
  h_wf σ →
  ∃ σ', h_add_edge u v σ = (Ret (), σ') ∧ h_wf σ' ∧
    view σ' = state_after (add_edge u v) (view σ).
Proof.
  intros Hwf.
  destruct (h_add_node_sim u σ Hwf) as [Hwf1 Hv1].
  destruct (h_add_node_sim v _ Hwf1) as [Hwf2 Hv2].
  set (σ2 := h_add_node v (h_add_node u σ)) in *.
  assert (is_Some (edges_tbl σ2 !! u)) as [l Hl].
  { assert (is_Some (edges (view σ2) !! u)) as [s Hs].
    { rewrite Hv2, Hv1. unfold state_after. rewrite !add_node_eq. cbn [snd edges].
      apply elem_of_dom. rewrite dom_touch. apply elem_of_union_l.
      apply elem_of_dom, touch_is_Some. }
    rewrite view_edges_lookup in Hs. destruct (edges_tbl σ2 !! u); [eauto|done]. }
  unfold h_add_edge. fold σ2. rewrite Hl.
  destruct (view_caller_mutates_stored σ2 u l (λ s, s ∪ {[v]}) Hwf2 Hl)
    as [Hwf3 Hv3].
  eexists. split; [done|]. split; [exact Hwf3|].
  unfold caller_mutates in Hv3. unfold set_add. rewrite Hv3.
  unfold state_after at 1. rewrite add_edge_steps, <-Hv1, <-Hv2. fold σ2.
  unfold edges_add. rewrite view_edges_lookup, Hl. simpl.
  rewrite get_neighbors_view, Hl. done.
Qed.

(** What [get_neighbors] hands out, and what adding to it does. *)
Lemma h_get_neighbors_spec σ n :
  h_wf σ →
  let r := (h_get_neighbors n σ).1 in
  let σ' := (h_get_neighbors n σ).2 in
  h_wf σ' ∧ view σ' = view σ ∧
  deref (heap σ') r = get_neighbors (view σ) n ∧
  (edges_tbl σ !! n = None → ∀ f, view (caller_mutates r f σ') = view σ) ∧
  (∀ l, edges_tbl σ !! n = Some l →
     r = l ∧
     ∀ f, view (caller_mutates r f σ') =
          Digraph (nodes (view σ))
                  (<[n := f (get_neighbors (view σ) n)]> (edges (view σ)))).
Proof.
  intros Hwf. pose proof Hwf as (Hn & Ht & Hinj).
  set (l0 := fresh (dom (heap σ))).
  set (σ1 := HGraph (<[l0 := ∅]> (heap σ)) (nodes_ref σ) (edges_tbl σ)).
  assert ((h_get_neighbors n σ).2 = σ1) as ->.
  { unfold h_get_neighbors, alloc. by destruct (edges_tbl σ !! n). }
  assert ((h_get_neighbors n σ).1 = default l0 (edges_tbl σ !! n)) as ->.
  { unfold h_get_neighbors, alloc. by destruct (edges_tbl σ !! n). }
  assert (∀ l, l ∈ dom (heap σ) → deref (heap σ1) l = deref (heap σ) l) as Hsame.
  { intros l Hl. apply deref_insert_ne, fresh_not_dom, Hl. }
  assert (h_wf σ1) as Hwf1.
  { split_and!; simpl; [|intros k l [? ?]%Ht; split; [|done]|done];
      rewrite dom_insert_L; by apply elem_of_union_r. }
  assert (view σ1 = view σ) as Hview.
  { destruct σ as [h nr tbl]. apply view_frame; simpl in *.
    - by apply Hsame.
    - intros k l [? _]%Ht. by apply Hsame. }
  cbn zeta. split_and!; [done|done| | |].
  - rewrite get_neighbors_view. destruct (edges_tbl σ !! n) as [l|] eqn:En; simpl.
    + apply Hsame. by destruct (Ht n l En).
    + apply deref_insert_eq.
  - intros En f. rewrite En. simpl. rewrite <-Hview.
    unfold caller_mutates, σ1; simpl. apply view_frame.
    + apply deref_update_ne, fresh_not_dom, Hn.
    + intros k l [? _]%Ht. by apply deref_update_ne, fresh_not_dom.
  - intros l En. rewrite En. simpl. split; [done|]. intros f.
    destruct (view_caller_mutates_stored σ1 n l f Hwf1 En) as [_ ->].
    by rewrite Hview.
Qed.

End heap_theory.

(** ** Insertions only add; a path back makes a cycle *)

Section more_store.
Context `{Countable K} `{!IterOrder K}.
Implicit Types (g : digraph K) (u v n k x y start : K).

Lemma touch_touch k (m : gmap K (gset K)) : touch k (touch k m) = touch k m.
Proof.
  unfold touch at 1. by destruct (touch_is_Some k m) as [s ->].
Qed.

Lemma get_all_nodes_once g n :
  n ∈ nodes g → length (filter (λ y, y = n) (get_all_nodes g)) = 1.
Proof.
  intros Hn. apply NoDup_count_one; [apply iter_NoDup|]. by apply elem_of_iter.
Qed.

Lemma rtc_mono (R R' : relation K) x y :
  (∀ a b, R a b → R' a b) → rtc R x y → rtc R' x y.
Proof.
  intros Hsub Hp. induction Hp as [|a b c Hab _ IH]; [done|].
  eapply rtc_l; [by apply Hsub|done].
Qed.

Lemma step_base_grows g (o : op K) :
  nodes g ⊆ nodes (step_base g o) ∧ ∀ x y, edge g x y → edge (step_base g o) x y.
Proof.
  destruct o as [n|u v]; simpl.
  - split; [unfold state_after; rewrite add_node_eq; set_solver|].
    intros x y. by rewrite edge_add_node.
  - split; [rewrite nodes_add_edge; set_solver|].
    intros x y. rewrite edge_add_edge. by left.
Qed.

Lemma step_dag_grows g (o : op K) :
  nodes g ⊆ nodes (step_dag g o) ∧ ∀ x y, edge g x y → edge (step_dag g o) x y.
Proof.
  destruct o as [n|u v]; [apply (step_base_grows g (AddNode n))|]. simpl.
  destruct (DAG_add_edge_state u v g) as [->|[_ E]]; [done|].
  unfold state_after. rewrite E. apply (step_base_grows g (AddEdge u v)).
Qed.

Lemma foldl_grows (step : digraph K → op K → digraph K) g (ops : list (op K)) :
  (∀ g o, nodes g ⊆ nodes (step g o) ∧ ∀ x y, edge g x y → edge (step g o) x y) →
  nodes g ⊆ nodes (foldl step g ops) ∧
  ∀ x y, edge g x y → edge (foldl step g ops) x y.
Proof.
  intros Hstep. revert g. induction ops as [|o ops IH]; intros g; simpl; [done|].
  destruct (Hstep g o) as [Hn He]. destruct (IH (step g o)) as [Hn' He'].
  split; [set_solver|]. auto.
Qed.

Lemma cycle_through_new_edge g u v :
  rtc (edge g) v u → tc (edge (state_after (add_edge u v) g)) u u.
Proof.
  intros Hp. eapply tc_rtc_r; [apply tc_once, edge_add_edge; by right|].
  eapply rtc_mono; [|done]. intros a b Hab. apply edge_add_edge. by left.
Qed.

End more_store.

(** ** [top_sort]: which states make it raise *)

Section sort_errors.
Context `{Countable K} `{!IterOrder K}.
Implicit Types (g : digraph K) (u v n k x y : K) (m : gmap K Z) (q t l : list K).

Lemma bump_loop_outcome (d : Z) l m :
  match for_each (bump d) m l with
  | Ret m' => dom m' = dom m ∧ ∀ x, x ∈ l → x ∈ dom m
  | Raise e => ∃ k, e = KeyError k ∧ k ∈ l ∧ k ∉ dom m
  | OutOfFuel => False
  end.
Proof.
  revert m. induction l as [|a l IH]; intros m; cbn [for_each].
  - split; [done|]. by intros x ?%elem_of_nil.
  - unfold bump at 1. destruct (m !! a) as [z|] eqn:E; cbn [obind].
    + specialize (IH (<[a:=(z + d)%Z]> m)).
      assert (dom (<[a:=(z + d)%Z]> m) = dom m) as Hd.
      { rewrite dom_insert_L. apply elem_of_dom_2 in E. set_solver. }
      rewrite Hd in IH.
      destruct (for_each (bump d) (<[a:=(z + d)%Z]> m) l) as [m'|e|].
      * destruct IH as [IH1 IH2]. split; [done|].
        intros x [->|Hx]%elem_of_cons; [by eapply elem_of_dom_2|by apply IH2].
      * destruct IH as (k & -> & Hk & Hkm). exists k. split_and!; [done|by right|done].
      * done.
    + exists a. split_and!; [done|left|by apply not_elem_of_dom].
Qed.

Lemma count_loop_outcome g l m :
  match for_each (λ m current_node,
                   for_each (bump 1) m (iter (get_neighbors g current_node))) m l with
  | Ret m' => dom m' = dom m ∧ ∀ u v, u ∈ l → edge g u v → v ∈ dom m
  | Raise e => ∃ u k, e = KeyError k ∧ u ∈ l ∧ edge g u k ∧ k ∉ dom m
  | OutOfFuel => False
  end.
Proof.
  revert m. induction l as [|a l IH]; intros m; cbn [for_each].
  - split; [done|]. by intros u v ?%elem_of_nil.
  - pose proof (bump_loop_outcome 1 (iter (get_neighbors g a)) m) as Hin.
    destruct (for_each (bump 1) m (iter (get_neighbors g a))) as [m1|e|]; cbn [obind].
    + destruct Hin as [Hd Hall]. specialize (IH m1). rewrite Hd in IH.
      destruct (for_each _ m1 l) as [m'|e|].
      * destruct IH as [IH1 IH2]. split; [done|].
        intros u v [->|Hu]%elem_of_cons Huv; [|by eapply IH2].
        by apply Hall, elem_of_iter.
      * destruct IH as (u & k & -> & Hu & Huk & Hk).
        exists u, k. split_and!; [done|by right|done|done].
      * done.
    + destruct Hin as (k & -> & Hk%elem_of_iter & Hkm).
      exists a, k. split_and!; [done|left|done|done].
    + done.
Qed.

Lemma zero_dom g :
  dom (foldl (λ m n, <[n := 0%Z]> m) (∅ : gmap K Z) (iter (nodes g))) = nodes g.
Proof.
  apply set_eq. intros k. rewrite elem_of_dom, zero_lookup.
  case_decide as Hk; rewrite elem_of_iter in Hk.
  - split; eauto.
  - rewrite lookup_empty. split; [by intros []|done].
Qed.

Lemma in_degrees_outcome g :
  match in_degrees g with
  | Ret m => dom m = nodes g ∧ closed g
  | Raise e => ∃ u k, e = KeyError k ∧ u ∈ nodes g ∧ edge g u k ∧ k ∉ nodes g
  | OutOfFuel => False
  end.
Proof.
  unfold in_degrees.
  pose proof (count_loop_outcome g (iter (nodes g))
    (foldl (λ m n, <[n := 0%Z]> m) ∅ (iter (nodes g)))) as Hout.
  rewrite zero_dom in Hout. destruct (for_each _ _ _) as [m|e|].
  - destruct Hout as [Hd Hcl]. split; [done|].
    intros u v Hu Huv. apply (Hcl u v); [by apply elem_of_iter|done].
  - destruct Hout as (u & k & -> & Hu%elem_of_iter & Huk & Hk). by exists u, k.
  - done.
Qed.

Lemma relax_loop_outcome l m q :
  (∀ x, x ∈ l → x ∈ dom m) →
  ∃ m' q', for_each relax (m, q) l = Ret (m', q') ∧ dom m' = dom m ∧
    ∀ x, x ∈ q' → x ∈ q ∨ x ∈ l.
Proof.
  revert m q. induction l as [|a l IH]; intros m q Hl; cbn [for_each].
  - exists m, q. split_and!; [done|done|]. intros x ?. by left.
  - assert (is_Some (m !! a)) as [z Hz] by (apply elem_of_dom, Hl; left).
    unfold relax at 1, bump. cbn [fst snd]. rewrite Hz. cbn [obind].
    set (m1 := <[a:=(z + -1)%Z]> m).
    assert (dom m1 = dom m) as Hd.
    { unfold m1. rewrite dom_insert_L. apply elem_of_dom_2 in Hz. set_solver. }
    match goal with |- context [for_each relax (m1, ?q1) l] =>
      destruct (IH m1 q1) as (m' & q' & -> & Hd' & Hq') end.
    { intros x Hx. rewrite Hd. apply Hl. by right. }
    exists m', q'. split_and!; [done|congruence|].
    intros x [Hx|Hx]%Hq'; [|right; by right].
    case_decide; [|by left].
    apply elem_of_app in Hx as [?|Hx%list_elem_of_singleton];
      [by left|subst; right; left].
Qed.

Lemma top_sort_loop_no_raise g fuel m q t e :
  closed g → dom m = nodes g → (∀ x, x ∈ q → x ∈ nodes g) →
  top_sort_loop fuel g m q t ≠ Raise e.
Proof.
  intros Hcl. revert m q t. induction fuel as [|fuel IH]; intros m q t Hd Hq; [done|].
  cbn [top_sort_loop]. destruct q as [|c q]; [done|].
  destruct (relax_loop_outcome (iter (get_neighbors g c)) m q)
    as (m' & q' & -> & Hd' & Hq').
  { intros x Hx%elem_of_iter. rewrite Hd. apply (Hcl c); [apply Hq; left|done]. }
  cbn [obind fst snd]. apply IH; [congruence|].
  intros x [Hx|Hx%elem_of_iter]%Hq'; [apply Hq; by right|].
  apply (Hcl c); [apply Hq; left|done].
Qed.

Lemma top_sort_outcome g :
  match top_sort g with
  | Ret r => closed g
  | Raise e => ∃ u k, e = KeyError k ∧ u ∈ nodes g ∧ edge g u k ∧ k ∉ nodes g
  | OutOfFuel => False
  end.
Proof.
  pose proof (top_sort_fuel g) as Hfuel. pose proof (in_degrees_outcome g) as Hin.
  unfold top_sort in *. destruct (in_degrees g) as [m|e|]; cbn [obind] in *; [|done..].
  destruct Hin as [Hd Hcl]. unfold initial_queue in *.
  rewrite initial_queue_loop in *; try (intros x Hx%elem_of_iter; by rewrite Hd).
  cbn [obind app] in *.
  destruct (top_sort_loop _ g m _ []) as [r|e|] eqn:E; [done| |done].
  exfalso. revert E. apply top_sort_loop_no_raise; [done|done|].
  intros x [_ Hx]%list_elem_of_filter. by apply elem_of_iter in Hx.
Qed.

End sort_errors.

(** ** [top_sort]: the omitted nodes; [dfs]: the order of the yields *)

Section more_sort.
Context `{Countable K} `{!IterOrder K}.
Implicit Types (g : digraph K) (u v n k x y start : K) (X S : gset K)
  (q t l r out stack : list K).

Lemma backward_walk_cycle (E : relation K) X x (fuel : nat) S y :
  (∀ w, w ∈ X → ∃ z, z ∈ X ∧ E z w) →
  size S ≤ fuel → y ∈ X → rtc E y x →
  (∀ w, w ∈ X → w ∉ S → rtc E y w ∧ rtc E w x) →
  ∃ c, tc E c c ∧ rtc E c x.
Proof.
  intros Hpred. revert S y.
  induction fuel as [|fuel IH]; intros S y Hsize Hy Hyx Hseen;
    destruct (Hpred y Hy) as (z & Hz & Hzy);
    (destruct (decide (z ∈ S)) as [HzS|HzS];
     [rewrite (size_remove S z) in Hsize by done|
      destruct (Hseen z Hz HzS) as [Hyz Hzx];
      exists z; split; [|done]; eapply tc_rtc_r; [by apply tc_once|done]]).
  - lia.
  - apply (IH (S ∖ {[z]}) z); [lia|done| |].
    + by eapply rtc_l.
    + intros w Hw HwS. destruct (decide (w = z)) as [->|Hne].
      * split; [done|]. by eapply rtc_l.
      * destruct (Hseen w Hw) as [Hyw Hwx]; [set_solver|].
        split; [by eapply rtc_l|done].
Qed.

(** In a finite set in which every member has a predecessor in the set,
    every member is reachable from a cycle. *)
Lemma sourceless_reached_from_cycle (E : relation K) X x :
  x ∈ X → (∀ w, w ∈ X → ∃ z, z ∈ X ∧ E z w) → ∃ c, tc E c c ∧ rtc E c x.
Proof.
  intros Hx Hpred.
  apply (backward_walk_cycle E X x (size X) (X ∖ {[x]}) x); [done| |done|done|].
  - apply subseteq_size. set_solver.
  - intros w Hw HwS. assert (w = x) as ->; [|done].
    destruct (decide (w = x)); [done|set_solver].
Qed.

Lemma top_sort_exact g :
  wf g →
  ∃ r, top_sort g = Ret r ∧ NoDup r ∧
    (∀ x, x ∈ r ↔ x ∈ nodes g ∧ ¬ ∃ c, tc (edge g) c c ∧ rtc (edge g) c x) ∧
    (∀ u v, edge g u v → v ∈ r → precedes r u v).
Proof.
  intros Hwf.
  destruct (top_sort_spec g Hwf) as (r & Hr & Hnd & Hsub & Hprec & Hrest).
  exists r. split_and!; [done|done| |done].
  intros x. split.
  - intros Hx. split; [by apply Hsub|]. intros (c & Hc & Hcx).
    assert (c ∈ r) as Hcr.
    { apply rtc_tc in Hcx as [->|Hcx]; [done|].
      by apply (tc_precedes g r c x) in Hcx as [? _]%precedes_elem_of. }
    apply (precedes_irrefl r c); [done|]. by apply (tc_precedes g).
  - intros [Hx Hno]. destruct (decide (x ∈ r)) as [|Hxr]; [done|]. exfalso.
    apply Hno.
    apply (sourceless_reached_from_cycle (edge g) (nodes g ∖ list_to_set r)).
    + apply elem_of_difference. by rewrite elem_of_list_to_set.
    + intros w [Hw Hwr]%elem_of_difference. rewrite elem_of_list_to_set in Hwr.
      destruct (Hrest w Hw Hwr) as (z & Hz & Hzr & Hzw). exists z. split; [|done].
      apply elem_of_difference. by rewrite elem_of_list_to_set.
Qed.

Lemma top_sort_length_iff g :
  wf g →
  ∃ r, top_sort g = Ret r ∧ (length r = size (nodes g) ↔ acyclic g).
Proof.
  intros Hwf. destruct (top_sort_spec g Hwf) as (r & Hr & Hnd & Hsub & _).
  exists r. split; [done|]. split.
  - intros Hlen n Hn.
    destruct (top_sort_cyclic_spec g Hwf) as (r' & Hr' & Hlt & _); [by exists n|].
    rewrite Hr in Hr'. injection Hr' as <-. lia.
  - intros Hacyc.
    destruct (top_sort_acyclic_spec g Hwf Hacyc) as (r' & Hr' & _ & Hall & _).
    rewrite Hr in Hr'. injection Hr' as <-.
    rewrite <-(size_list_to_set (C:=gset K) r) by done. f_equal.
    apply set_eq. intros x. by rewrite elem_of_list_to_set.
Qed.

(** Each node yielded by the loop of [dfs] stands on the stack at the start
    or is a neighbor of a node yielded before it. *)
Lemma dfs_loop_parent g fuel stack V out (J : K → Prop) :
  (∀ s, s ∈ stack → J s) →
  dfs_loop fuel g stack V = Ret out →
  ∀ i x, out !! i = Some x →
    J x ∨ ∃ j p, j < i ∧ out !! j = Some p ∧ edge g p x.
Proof.
  revert stack V out J. induction fuel as [|fuel IH]; intros stack V out J HJ; [done|].
  cbn [dfs_loop]. destruct stack as [|c stack].
  - intros [= <-] i x. by rewrite lookup_nil.
  - case_decide as Hc.
    + apply IH. intros s Hs. apply HJ. by right.
    + destruct (dfs_loop fuel g _ _) as [out'| |] eqn:E; cbn [omap obind]; [|done..].
      intros [= <-] i x Hi.
      destruct i as [|i]; simpl in Hi.
      { injection Hi as <-. left. apply HJ. left. }
      assert (∀ s, s ∈ push_unvisited (V ∪ {[c]}) stack
                           (reverse (iter (get_neighbors g c))) →
                   J s ∨ edge g c s) as HJ'.
      { intros s [[Hs _]|Hs]%elem_of_push_unvisited.
        - right. by apply elem_of_reverse, elem_of_iter in Hs.
        - left. apply HJ. by right. }
      destruct (IH _ _ _ (λ s, J s ∨ edge g c s) HJ' E i x Hi)
        as [[HJx|Hcx]|(j & p & Hj & Hp & Hpx)].
      * by left.
      * right. exists 0, c. split_and!; [lia|done|done].
      * right. exists (S j), p. split_and!; [lia|done|done].
Qed.

Lemma rtc_in_nodes g x y : wf g → x ∈ nodes g → rtc (edge g) x y → y ∈ nodes g.
Proof.
  intros Hwf Hx Hp. induction Hp as [|a b c Hab _ IH]; [done|].
  apply IH. by apply (proj2 Hwf a).
Qed.

End more_sort.

(** ** [dfs]: the neighbors of the start in iteration order *)

Section dfs_order.
Context `{Countable K} `{!IterOrder K}.
Implicit Types (g : digraph K) (u v n k x y start : K).

Lemma push_unvisited_reversed (V : gset K) (l : list K) :
  push_unvisited V [] (reverse l) = filter (λ x, x ∉ V) l.
Proof.
  rewrite push_unvisited_eq, app_nil_r, filter_reverse. apply reverse_involutive.
Qed.

Lemma dfs_first_neighbor g start n (others : list K) :
  start ∈ nodes g →
  filter (λ x, x ≠ start) (iter (get_neighbors g start)) = n :: others →
  ∃ out, dfs g start = Ret (start :: n :: out).
Proof.
  intros Hs Hn. destruct (dfs_present g start Hs) as (rest & Hr & _).
  rewrite Hr. unfold dfs in Hr. rewrite decide_True in Hr by done.
  rewrite dfs_loop_visit in Hr by set_solver.
  rewrite push_unvisited_reversed in Hr.
  rewrite (list_filter_iff _ (λ x, x ≠ start)) in Hr by set_solver.
  rewrite Hn in Hr. rewrite dfs_loop_visit in Hr.
  2:{ assert (n ∈ n :: others) as Hin by left. rewrite <-Hn in Hin.
      apply list_elem_of_filter in Hin as [Hne _]. set_solver. }
  destruct (dfs_loop _ g _ _) as [out| |]; cbn [omap obind] in Hr; [|done..].
  injection Hr as <-. by exists out.
Qed.

End dfs_order.

(** * The claims *)

Section claims.
Context `{Countable K} `{!IterOrder K}.
Implicit Types (g : digraph K) (u v n k start : K).

(** C1: in every state of a [DAG] and for all [u], [v], the call
    [add_edge(u, v)] fails exactly when a path leads from [v] to [u], a
    path of no edge included, so that inserting a self-loop always fails;
    the error it raises carries the pair [(u, v)]; a failed call leaves the
    state as it was, and a call that does not fail does what the [add_edge]
    of the base class does. *)
Theorem DAG_add_edge_guard g u v :
  (result_of (DAG_add_edge u v) g = Raise (ValueError u v) ↔ rtc (edge g) v u) ∧
  (result_of (DAG_add_edge u v) g = Ret () ↔ ¬ rtc (edge g) v u) ∧
  (rtc (edge g) v u → state_after (DAG_add_edge u v) g = g) ∧
  (¬ rtc (edge g) v u → DAG_add_edge u v g = add_edge u v g) ∧
  DAG_add_edge u u g = (Raise (ValueError u u), g).
Proof.
  assert (∀ g u v, result_of (add_edge u v) g = Ret ()) as Hadd.
  { intros. unfold result_of. by rewrite add_edge_eq. }
  split_and!.
  - split; [|intros Hp; unfold result_of; by rewrite DAG_add_edge_cycle].
    intros Hr. destruct (rtc_edge_dec g v u) as [|Hp]; [done|].
    unfold result_of in Hr. rewrite DAG_add_edge_no_cycle in Hr by done.
    fold (result_of (add_edge u v) g) in Hr. by rewrite Hadd in Hr.
  - split.
    + intros Hr Hp. unfold result_of in Hr. by rewrite DAG_add_edge_cycle in Hr.
    + intros Hp. unfold result_of. rewrite DAG_add_edge_no_cycle by done. apply Hadd.
  - intros Hp. unfold state_after. by rewrite DAG_add_edge_cycle.
  - apply DAG_add_edge_no_cycle.
  - by apply DAG_add_edge_cycle.
Qed.

(** C2: every state reached from the empty [DAG] by calls of [add_node]
    and [add_edge], a rejected [add_edge] leaving the state as it was, has
    no directed cycle: no non-empty path leads from a node back to it. *)
Theorem DAG_runs_acyclic (ops : list (op K)) : acyclic (run_dag ops).
Proof. apply acyclic_run_dag. Qed.

(** C3: on a graph without a directed cycle (and with the invariant of the
    data model), [top_sort()] returns a list in which every node of the
    graph occurs, each once, and in which [u] stands before [v] for every
    edge [u → v]. *)
Theorem kahn_orders_acyclic_graph g :
  wf g → acyclic g →
  ∃ r, top_sort g = Ret r ∧ NoDup r ∧ length r = size (nodes g) ∧
    (∀ n, n ∈ r ↔ n ∈ nodes g) ∧
    (∀ u v, edge g u v → precedes r u v).
Proof.
  intros Hwf Hacyc.
  destruct (top_sort_acyclic_spec g Hwf Hacyc) as (r & Hr & Hnd & Hall & Hprec).
  exists r. split_and!; [done|done| |done|done].
  rewrite <-(size_list_to_set (C:=gset K) r) by done. f_equal.
  apply set_eq. intros x. by rewrite elem_of_list_to_set.
Qed.

(** C4: on a graph with a directed cycle (and with the invariant of the data
    model), [top_sort()] returns, without an error, a list shorter than the
    number of nodes, in which no node of a cycle and no node reachable from
    a cycle occurs; for the cycle [a → b, b → c, c → a] built in the base
    graph it returns the empty list. *)
Theorem kahn_omits_cycles :
  (∀ g, wf g → (∃ n, tc (edge g) n n) →
     ∃ r, top_sort g = Ret r ∧ length r < size (nodes g) ∧
       ∀ c x, tc (edge g) c c → rtc (edge g) c x → x ∉ r) ∧
  (∀ a b c : K, top_sort (cycle3 a b c) = Ret []).
Proof. split; [apply top_sort_cyclic_spec|apply top_sort_cycle3]. Qed.

(** C5: [dfs(start)] yields nothing when [start] is not a node; otherwise it
    ends, also on a graph with cycles, having yielded every node reachable
    from [start] once and no other node; in the graph
    [a → b, a → c, b → d, c → d] the node [d] is yielded once from [a]. *)
Theorem dfs_visits_reachable_once :
  (∀ g start, start ∉ nodes g → dfs g start = Ret []) ∧
  (∀ g start, start ∈ nodes g →
     ∃ out, dfs g start = Ret out ∧ NoDup out ∧
       ∀ x, x ∈ out ↔ rtc (edge g) start x) ∧
  (∀ a b c d : K,
     ∃ out, dfs (diamond a b c d) a = Ret out ∧
       length (filter (λ y, y = d) out) = 1).
Proof.
  split_and!; [apply dfs_absent| |apply dfs_diamond].
  intros g start Hs. destruct (dfs_present g start Hs) as (rest & ? & ? & ?).
  by exists (start :: rest).
Qed.

(** C10: when [start] is a node of the graph, [dfs(start)] yields at least
    one node and the first one is [start]. *)
Theorem dfs_yields_start_first g start :
  start ∈ nodes g → ∃ rest, dfs g start = Ret (start :: rest).
Proof.
  intros Hs. destruct (dfs_present g start Hs) as (rest & ? & _). by exists rest.
Qed.

(** C7: in every state of the base Graph Store and for all [u], [v], also
    equal ones, [add_edge(u, v)] returns without an error; afterwards [v] is
    among [get_neighbors(u)] and both [u] and [v] are listed by
    [get_all_nodes()]; running the same call again on the state it produced
    returns again and leaves that state as it is. *)
Theorem add_edge_total_idempotent g u v :
  let g' := state_after (add_edge u v) g in
  result_of (add_edge u v) g = Ret () ∧
  v ∈ get_neighbors g' u ∧
  u ∈ get_all_nodes g' ∧ v ∈ get_all_nodes g' ∧
  add_edge u v g' = (Ret (), g').
Proof.
  intros g'. split; [unfold result_of; by rewrite add_edge_eq|].
  split; [subst g'; rewrite get_neighbors_add_edge, decide_True by done; set_solver|].
  unfold get_all_nodes. rewrite !elem_of_iter. subst g'. rewrite nodes_add_edge.
  split; [set_solver|]. split; [set_solver|].
  rewrite (add_edge_eq u v (state_after _ _)).
  rewrite get_neighbors_add_edge, decide_True by done.
  rewrite nodes_add_edge. unfold state_after. rewrite add_edge_eq. simpl.
  f_equal. f_equal; [set_solver|].
  set (m := touch v (touch u (edges g))).
  set (s := get_neighbors g u ∪ {[v]}).
  assert (touch u (<[u:=s]> m) = <[u:=s]> m) as ->.
  { unfold touch. by rewrite lookup_insert_eq. }
  assert (touch v (<[u:=s]> m) = <[u:=s]> m) as ->.
  { unfold touch. destruct (decide (u = v)) as [->|].
    - by rewrite lookup_insert_eq.
    - rewrite lookup_insert_ne by done.
      destruct (touch_is_Some v (touch u (edges g))) as [? E].
      fold m in E. by rewrite E. }
  rewrite insert_insert_eq. f_equal. set_solver.
Qed.

(** C8: in every state reached from the empty graph by calls of [add_node]
    and [add_edge], with the insertion of the base class or with that of
    [DAG], the keys of the adjacency map are exactly the node set, and every
    member of every adjacency set is in the node set. *)
Theorem reachable_store_invariant (ops : list (op K)) :
  let invariant g :=
    dom (edges g) = nodes g ∧
    ∀ k s x, edges g !! k = Some s → x ∈ s → x ∈ nodes g in
  invariant (run_base ops) ∧ invariant (run_dag ops).
Proof.
  assert (∀ g, wf g → dom (edges g) = nodes g ∧
    ∀ k s x, edges g !! k = Some s → x ∈ s → x ∈ nodes g) as Hinv.
  { intros g Hwf. split; [apply Hwf|]. intros k s x. by apply wf_lookup. }
  split; apply Hinv.
  - apply wf_foldl; [apply wf_step_base|apply wf_init].
  - apply wf_foldl; [apply wf_step_dag|apply wf_init].
Qed.

(** C9, as the code has it: [get_neighbors(n)] changes nothing and returns
    a set equal to the neighbors of [n]; when [n] has no entry in the
    adjacency map that set is a new object, and mutating it leaves the
    graph as it was; when [n] has an entry the returned set is the stored
    adjacency set itself, and what the caller turns it into becomes the
    set of neighbors of [n] in the graph, the node set and the other
    entries staying as they were. *)
Theorem get_neighbors_aliasing (σ : hgraph K) n :
  h_wf σ →
  let r := (h_get_neighbors n σ).1 in
  let σ' := (h_get_neighbors n σ).2 in
  view σ' = view σ ∧
  deref (heap σ') r = get_neighbors (view σ) n ∧
  (edges_tbl σ !! n = None → ∀ f, view (caller_mutates r f σ') = view σ) ∧
  (∀ l, edges_tbl σ !! n = Some l →
     r = l ∧
     ∀ f, view (caller_mutates r f σ') =
          Digraph (nodes (view σ))
                  (<[n := f (get_neighbors (view σ) n)]> (edges (view σ)))).
Proof.
  intros Hwf. destruct (h_get_neighbors_spec σ n Hwf) as (_ & ? & ? & ? & ?).
  done.
Qed.

End claims.

(** ** Instances on concrete graphs *)

Lemma bfs_empty `{Countable K} `{!IterOrder K} (g : digraph K) (start : K) :
  bfs g start = Ret [].
Proof. unfold bfs. by case_decide. Qed.

(** C6, on the graph with the one edge [1 → 2]: the node [2] is reachable
    from the node [1], and [bfs(1)] yields nothing. *)
Theorem bfs_misses_neighbor :
  1 ∈ nodes (run_base [AddEdge 1 2]) ∧
  rtc (edge (run_base [AddEdge 1 2])) 1 2 ∧
  bfs (run_base [AddEdge 1 2]) 1 = Ret [].
Proof.
  split_and!; [|apply rtc_once|apply bfs_empty];
    unfold run_base; cbn [foldl step_base].
  - rewrite nodes_add_edge. set_solver.
  - apply edge_add_edge. by right.
Qed.

(** C9 as stated fails on the graph with the edge [1 → 2]: adding [3] to
    what [get_neighbors(1)] returned changes the graph. *)
Lemma aliasing_example_unsafe : ¬ mutation_safe aliasing_example 1.
Proof.
  intros Hsafe. specialize (Hsafe (λ s, s ∪ {[3]})).
  apply (f_equal (λ g, elements (get_neighbors g 1))) in Hsafe.
  vm_compute in Hsafe. discriminate.
Qed.

Lemma aliasing_example_wf : h_wf aliasing_example.
Proof.
  destruct (h_add_edge_sim 1 2 h_init (proj1 h_init_sim)) as (σ' & Heq & Hwf & _).
  unfold aliasing_example. by rewrite Heq.
Qed.

Lemma get_neighbors_aliasing_witness :
  h_wf aliasing_example ∧
  (h_get_neighbors 1 aliasing_example).1 = 2%positive ∧
  ∀ f, view (caller_mutates (h_get_neighbors 1 aliasing_example).1 f
               (h_get_neighbors 1 aliasing_example).2) =
       Digraph (nodes (view aliasing_example))
         (<[1 := f (get_neighbors (view aliasing_example) 1)]>
            (edges (view aliasing_example))).
Proof.
  split; [apply aliasing_example_wf|].
  destruct (get_neighbors_aliasing aliasing_example 1 aliasing_example_wf)
    as (_ & _ & _ & Hstored).
  apply (Hstored 2%positive). reflexivity.
Defined.

Lemma kahn_orders_acyclic_graph_witness :
  wf (run_dag [AddEdge 1 2; AddEdge 1 3; AddEdge 2 4; AddEdge 3 4]) ∧
  acyclic (run_dag [AddEdge 1 2; AddEdge 1 3; AddEdge 2 4; AddEdge 3 4]) ∧
  ∃ r, top_sort (run_dag [AddEdge 1 2; AddEdge 1 3; AddEdge 2 4; AddEdge 3 4])
       = Ret r ∧ NoDup r ∧
    length r = size (nodes (run_dag [AddEdge 1 2; AddEdge 1 3; AddEdge 2 4; AddEdge 3 4])) ∧
    (∀ n, n ∈ r ↔ n ∈ nodes (run_dag [AddEdge 1 2; AddEdge 1 3; AddEdge 2 4; AddEdge 3 4])) ∧
    (∀ u v, edge (run_dag [AddEdge 1 2; AddEdge 1 3; AddEdge 2 4; AddEdge 3 4]) u v →
       precedes r u v).
Proof.
  split; [apply wf_run_dag|]. split; [apply acyclic_run_dag|].
  apply kahn_orders_acyclic_graph; [apply wf_run_dag|apply acyclic_run_dag].
Defined.

Lemma kahn_omits_cycles_witness :
  wf (cycle3 1 2 3) ∧ (∃ n, tc (edge (cycle3 1 2 3)) n n) ∧
  ∃ r, top_sort (cycle3 1 2 3) = Ret r ∧ length r < size (nodes (cycle3 1 2 3)) ∧
    ∀ c x, tc (edge (cycle3 1 2 3)) c c → rtc (edge (cycle3 1 2 3)) c x → x ∉ r.
Proof.
  assert (tc (edge (cycle3 1 2 3)) 1 1) as Hcyc.
  { destruct (cycle3_edges 1 2 3) as (Hab & Hbc & Hca).
    eapply tc_l; [exact Hab|]. eapply tc_l; [exact Hbc|]. apply tc_once, Hca. }
  split; [apply wf_run_base|]. split; [by exists 1|].
  apply (proj1 (kahn_omits_cycles (K:=nat))); [apply wf_run_base|by exists 1].
Defined.

Lemma dfs_visits_reachable_once_witness :
  1 ∈ nodes (diamond 1 2 3 4) ∧
  ∃ out, dfs (diamond 1 2 3 4) 1 = Ret out ∧ NoDup out ∧
    ∀ x, x ∈ out ↔ rtc (edge (diamond 1 2 3 4)) 1 x.
Proof.
  assert (1 ∈ nodes (diamond 1 2 3 4)) as Hs by (vm_compute; reflexivity).
  split; [exact Hs|].
  apply (proj1 (proj2 (dfs_visits_reachable_once (K:=nat)))). exact Hs.
Defined.

Lemma dfs_yields_start_first_witness :
  1 ∈ nodes (diamond 1 2 3 4) ∧ ∃ rest, dfs (diamond 1 2 3 4) 1 = Ret (1 :: rest).
Proof.
  assert (1 ∈ nodes (diamond 1 2 3 4)) as Hs by (vm_compute; reflexivity).
  split; [exact Hs|]. apply dfs_yields_start_first, Hs.
Defined.

(** * Further properties of the code *)

Section further_properties.
Context `{Countable K} `{!IterOrder K}.
Implicit Types (g : digraph K) (u v n k x y start : K).

(** X1: on every state and for all [start], [end], [_has_path(start, end)]
    returns, and it returns [True] exactly when a path of zero or more
    edges leads from [start] to [end]. *)
Theorem has_path_decides_reachability g start (end_ : K) :
  ∃ b, has_path g start end_ = Ret b ∧ (b = true ↔ rtc (edge g) start end_).
Proof. apply has_path_correct. Qed.

(** X2: [add_node(n)] never fails; it adds [n] to the nodes and leaves
    every set of neighbors, that of [n] included, as it was; calling it
    again changes nothing, and [get_all_nodes()] lists [n] once. *)
Theorem add_node_effect g n :
  result_of (add_node n) g = Ret () ∧
  nodes (state_after (add_node n) g) = nodes g ∪ {[n]} ∧
  (∀ k, get_neighbors (state_after (add_node n) g) k = get_neighbors g k) ∧
  add_node n (state_after (add_node n) g) = (Ret (), state_after (add_node n) g) ∧
  length (filter (λ y, y = n) (get_all_nodes (state_after (add_node n) g))) = 1.
Proof.
  split_and!.
  - unfold result_of. by rewrite add_node_eq.
  - unfold state_after. by rewrite add_node_eq.
  - intros k. apply get_neighbors_add_node.
  - unfold state_after. rewrite !add_node_eq. cbn [snd nodes edges].
    rewrite touch_touch. do 2 f_equal. set_solver.
  - apply get_all_nodes_once. unfold state_after. rewrite add_node_eq. set_solver.
Qed.

(** X3: the base [add_edge(u, v)] adds the nodes [u] and [v] and the edge
    [u → v] and nothing else: no other node and no other edge appears, and
    none disappears. *)
Theorem add_edge_exact g u v :
  nodes (state_after (add_edge u v) g) = nodes g ∪ {[u; v]} ∧
  ∀ x y, edge (state_after (add_edge u v) g) x y ↔ edge g x y ∨ (x = u ∧ y = v).
Proof.
  split; [rewrite nodes_add_edge; set_solver|]. intros x y. apply edge_add_edge.
Qed.

(** X4: no sequence of [add_node] and [add_edge] calls, of the base class
    or of [DAG], removes a node or an edge of the state it starts from. *)
Theorem graph_only_grows g (ops : list (op K)) :
  let grown g' := nodes g ⊆ nodes g' ∧ ∀ x y, edge g x y → edge g' x y in
  grown (foldl step_base g ops) ∧ grown (foldl step_dag g ops).
Proof.
  split; apply foldl_grows; [apply step_base_grows|apply step_dag_grows].
Qed.

(** X5: on a graph without a cycle, [DAG.add_edge(u, v)] raises exactly
    when the insertion of the base class would produce a graph with a
    cycle: the guard rejects no edge that could have been added. *)
Theorem DAG_rejects_exactly_cycles g u v :
  acyclic g →
  (result_of (DAG_add_edge u v) g = Raise (ValueError u v)
   ↔ ¬ acyclic (state_after (add_edge u v) g)).
Proof.
  intros Hg. destruct (rtc_edge_dec g v u) as [Hp|Hp].
  - split; [|intros _; unfold result_of; by rewrite DAG_add_edge_cycle].
    intros _ Hac. by apply (Hac u), cycle_through_new_edge.
  - split.
    + unfold result_of. rewrite DAG_add_edge_no_cycle, add_edge_eq by done. done.
    + intros Hcyc. exfalso. by apply Hcyc, acyclic_add_edge.
Qed.

(** X6: once a path leads from [u] to [v], [DAG.add_edge(v, u)] is rejected
    in that state and after every further sequence of [DAG] calls. *)
Theorem DAG_reverse_edge_rejected g u v (ops : list (op K)) :
  rtc (edge g) u v →
  DAG_add_edge v u (foldl step_dag g ops) =
  (Raise (ValueError v u), foldl step_dag g ops).
Proof.
  intros Hp. apply DAG_add_edge_cycle. eapply rtc_mono; [|done].
  apply foldl_grows, step_dag_grows.
Qed.

(** X7: on every state [top_sort()] returns a list or raises; it returns a
    list exactly when every neighbor of every node is a node, and what it
    raises otherwise is a [KeyError] for a neighbor of a node that is not a
    node. *)
Theorem top_sort_raises_iff_dangling g :
  (closed g ↔ ∃ r, top_sort g = Ret r) ∧
  (∀ e, top_sort g = Raise e →
     ∃ u k, e = KeyError k ∧ u ∈ nodes g ∧ edge g u k ∧ k ∉ nodes g) ∧
  top_sort g ≠ OutOfFuel.
Proof.
  pose proof (top_sort_outcome g) as Hout. split_and!.
  - split.
    + intros Hcl. destruct (top_sort g) as [r|e|]; [by exists r| |done].
      destruct Hout as (u & k & _ & Hu & Huk & Hk). exfalso. by apply Hk, (Hcl u).
    + intros [r Hr]. by rewrite Hr in Hout.
  - intros e He. by rewrite He in Hout.
  - apply top_sort_fuel.
Qed.

(** X8: on a graph with the invariant of the data model, cyclic or not,
    [top_sort()] returns, without repetition, exactly the nodes that no
    cycle reaches, and [u] stands before [v] for every edge [u → v] whose
    target is in the list. *)
Theorem top_sort_omits_exactly g :
  wf g →
  ∃ r, top_sort g = Ret r ∧ NoDup r ∧
    (∀ x, x ∈ r ↔ x ∈ nodes g ∧ ¬ ∃ c, tc (edge g) c c ∧ rtc (edge g) c x) ∧
    (∀ u v, edge g u v → v ∈ r → precedes r u v).
Proof. apply top_sort_exact. Qed.

(** X9: on a graph with the invariant of the data model, the list returned
    by [top_sort()] has as many elements as the graph has nodes exactly
    when the graph has no cycle. *)
Theorem top_sort_length_detects_cycle g :
  wf g →
  ∃ r, top_sort g = Ret r ∧ (length r = size (nodes g) ↔ acyclic g).
Proof. apply top_sort_length_iff. Qed.

(** X10: after every sequence of [add_node] and [add_edge] calls on a
    [DAG], [top_sort()] returns every node once, each edge pointing
    forward in the list. *)
Theorem DAG_top_sort_total (ops : list (op K)) :
  ∃ r, top_sort (run_dag ops) = Ret r ∧ NoDup r ∧
    (∀ n, n ∈ r ↔ n ∈ nodes (run_dag ops)) ∧
    (∀ u v, edge (run_dag ops) u v → precedes r u v).
Proof. apply top_sort_acyclic_spec; [apply wf_run_dag|apply acyclic_run_dag]. Qed.

(** X11: on every state [dfs(start)] ends, and every node it yields is
    [start] or a neighbor of a node yielded earlier. *)
Theorem dfs_parent_yielded_before g start :
  ∃ out, dfs g start = Ret out ∧
    ∀ i x, out !! i = Some x →
      x = start ∨ ∃ j p, j < i ∧ out !! j = Some p ∧ edge g p x.
Proof.
  destruct (decide (start ∈ nodes g)) as [Hs|Hs].
  - destruct (dfs_present g start Hs) as (rest & Hr & _). exists (start :: rest).
    split; [done|]. unfold dfs in Hr. rewrite decide_True in Hr by done.
    intros i x Hi.
    apply (dfs_loop_parent g (S (S (pending g ∅))) [start] ∅ (start :: rest)
             (λ s, s = start)) with (i := i); [|done|done].
    by intros s ->%list_elem_of_singleton.
  - exists []. split; [by apply dfs_absent|]. intros i x. by rewrite lookup_nil.
Qed.

(** X12: on a graph with the invariant of the data model, [dfs(start)]
    yields only nodes of the graph, so at most as many as there are. *)
Theorem dfs_stays_in_graph g start :
  wf g →
  ∃ out, dfs g start = Ret out ∧ (∀ x, x ∈ out → x ∈ nodes g) ∧
    length out ≤ size (nodes g).
Proof.
  intros Hwf. destruct (decide (start ∈ nodes g)) as [Hs|Hs].
  - destruct (dfs_present g start Hs) as (rest & Hr & Hnd & Hreach).
    exists (start :: rest).
    assert (∀ x, x ∈ start :: rest → x ∈ nodes g) as Hsub.
    { intros x Hx%Hreach. by eapply rtc_in_nodes. }
    split_and!; [done|done|]. by apply NoDup_length_le.
  - exists []. split_and!; [by apply dfs_absent| |simpl; lia].
    by intros x ?%elem_of_nil.
Qed.

(** X13: for a node [start] of the graph, [dfs(start)] yields [e] exactly
    when [_has_path(start, e)] returns [True]. *)
Theorem dfs_agrees_with_has_path g start (e : K) :
  start ∈ nodes g →
  ∃ out, dfs g start = Ret out ∧ (e ∈ out ↔ has_path g start e = Ret true).
Proof.
  intros Hs. destruct (dfs_present g start Hs) as (rest & Hr & _ & Hreach).
  exists (start :: rest). split; [done|]. rewrite Hreach.
  destruct (has_path_correct g start e) as (b & -> & Hb). rewrite <-Hb.
  split; [by intros ->|by intros [= ->]].
Qed.

(** X14: in every state of a [DAG] built by its methods, no node is among
    its own [successors], two nodes are never among the successors of each
    other, and every successor is listed by [get_all_nodes()]. *)
Theorem DAG_successors_one_way (ops : list (op K)) u v :
  v ∈ successors (run_dag ops) u →
  u ≠ v ∧ (u ∉ successors (run_dag ops) v) ∧
  u ∈ get_all_nodes (run_dag ops) ∧ v ∈ get_all_nodes (run_dag ops).
Proof.
  unfold successors, get_all_nodes. rewrite !elem_of_iter. intros Huv.
  pose proof (acyclic_run_dag ops) as Hac. pose proof (wf_run_dag ops) as Hwf.
  split_and!.
  - intros ->. apply (Hac v). by apply tc_once.
  - intros Hvu. apply (Hac u). eapply tc_l; [exact Huv|]. by apply tc_once.
  - rewrite <-(proj1 Hwf). by eapply edge_dom.
  - by apply (proj2 Hwf u).
Qed.

(** X15: after the base [add_edge(u, v)], [_has_path(u, v)] returns [True];
    after a [DAG.add_edge(u, v)] that was accepted on a graph without a
    cycle, [_has_path(v, u)] returns [False]. *)
Theorem has_path_after_insertion g u v :
  has_path (state_after (add_edge u v) g) u v = Ret true ∧
  (acyclic g → result_of (DAG_add_edge u v) g = Ret () →
   has_path (state_after (DAG_add_edge u v) g) v u = Ret false).
Proof.
  split.
  - destruct (has_path_correct (state_after (add_edge u v) g) u v) as (b & -> & Hb).
    f_equal. apply Hb, rtc_once, edge_add_edge. by right.
  - intros Hg Hr. destruct (rtc_edge_dec g v u) as [Hp|Hp].
    { unfold result_of in Hr. by rewrite DAG_add_edge_cycle in Hr. }
    unfold state_after. rewrite DAG_add_edge_no_cycle by done.
    fold (state_after (add_edge u v) g).
    destruct (has_path_correct (state_after (add_edge u v) g) v u) as ([] & -> & Hb);
      [|done].
    exfalso. apply (acyclic_add_edge g u v Hg Hp u).
    eapply tc_rtc_r; [apply tc_once, edge_add_edge; by right|by apply Hb].
Qed.

(** X16: when [start] is a node with a neighbor other than itself,
    [dfs(start)] yields, right after [start], the first such neighbor in
    the iteration order of [get_neighbors(start)]: pushing the neighbors
    in reverse makes the stack return them in order. *)
Theorem dfs_takes_first_neighbor_next g start n (others : list K) :
  start ∈ nodes g →
  filter (λ x, x ≠ start) (iter (get_neighbors g start)) = n :: others →
  ∃ out, dfs g start = Ret (start :: n :: out).
Proof. apply dfs_first_neighbor. Qed.

End further_properties.

(** ** Instances of the further properties *)

Lemma DAG_rejects_exactly_cycles_witness :
  acyclic (run_dag [AddEdge 1 2]) ∧
  (result_of (DAG_add_edge 2 1) (run_dag [AddEdge 1 2]) = Raise (ValueError 2 1)
   ↔ ¬ acyclic (state_after (add_edge 2 1) (run_dag [AddEdge 1 2]))).
Proof.
  split; [apply acyclic_run_dag|].
  apply DAG_rejects_exactly_cycles, acyclic_run_dag.
Defined.

Lemma DAG_reverse_edge_rejected_witness :
  rtc (edge (run_dag [AddEdge 1 2])) 1 2 ∧
  DAG_add_edge 2 1 (foldl step_dag (run_dag [AddEdge 1 2]) [AddEdge 2 3]) =
  (Raise (ValueError 2 1), foldl step_dag (run_dag [AddEdge 1 2]) [AddEdge 2 3]).
Proof.
  assert (rtc (edge (run_dag [AddEdge 1 2])) 1 2) as Hp.
  { apply rtc_once. unfold edge. vm_compute. reflexivity. }
  split; [exact Hp|]. apply DAG_reverse_edge_rejected, Hp.
Defined.

Lemma top_sort_omits_exactly_witness :
  wf (run_base [AddEdge 5 1; AddEdge 1 2; AddEdge 2 1; AddEdge 2 7]) ∧
  ∃ r, top_sort (run_base [AddEdge 5 1; AddEdge 1 2; AddEdge 2 1; AddEdge 2 7])
       = Ret r ∧ NoDup r ∧
    (∀ x, x ∈ r ↔
       x ∈ nodes (run_base [AddEdge 5 1; AddEdge 1 2; AddEdge 2 1; AddEdge 2 7]) ∧
       ¬ ∃ c, tc (edge (run_base [AddEdge 5 1; AddEdge 1 2; AddEdge 2 1; AddEdge 2 7])) c c ∧
              rtc (edge (run_base [AddEdge 5 1; AddEdge 1 2; AddEdge 2 1; AddEdge 2 7])) c x) ∧
    (∀ u v, edge (run_base [AddEdge 5 1; AddEdge 1 2; AddEdge 2 1; AddEdge 2 7]) u v →
       v ∈ r → precedes r u v).
Proof. split; [apply wf_run_base|]. apply top_sort_omits_exactly, wf_run_base. Defined.

Lemma top_sort_length_detects_cycle_witness :
  wf (cycle3 1 2 3) ∧
  ∃ r, top_sort (cycle3 1 2 3) = Ret r ∧
    (length r = size (nodes (cycle3 1 2 3)) ↔ acyclic (cycle3 1 2 3)).
Proof.
  split; [apply wf_run_base|]. apply top_sort_length_detects_cycle, wf_run_base.
Defined.

Lemma dfs_stays_in_graph_witness :
  wf (diamond 1 2 3 4) ∧
  ∃ out, dfs (diamond 1 2 3 4) 1 = Ret out ∧
    (∀ x, x ∈ out → x ∈ nodes (diamond 1 2 3 4)) ∧
    length out ≤ size (nodes (diamond 1 2 3 4)).
Proof. split; [apply wf_run_base|]. apply dfs_stays_in_graph, wf_run_base. Defined.

Lemma dfs_agrees_with_has_path_witness :
  1 ∈ nodes (diamond 1 2 3 4) ∧
  ∃ out, dfs (diamond 1 2 3 4) 1 = Ret out ∧
    (4 ∈ out ↔ has_path (diamond 1 2 3 4) 1 4 = Ret true).
Proof.
  assert (1 ∈ nodes (diamond 1 2 3 4)) as Hs by (vm_compute; reflexivity).
  split; [exact Hs|]. apply dfs_agrees_with_has_path, Hs.
Defined.

Lemma DAG_successors_one_way_witness :
  2 ∈ successors (run_dag [AddEdge 1 2; AddEdge 2 1]) 1 ∧
  1 ≠ 2 ∧ (1 ∉ successors (run_dag [AddEdge 1 2; AddEdge 2 1]) 2) ∧
  1 ∈ get_all_nodes (run_dag [AddEdge 1 2; AddEdge 2 1]) ∧
  2 ∈ get_all_nodes (run_dag [AddEdge 1 2; AddEdge 2 1]).
Proof.
  assert (2 ∈ successors (run_dag [AddEdge 1 2; AddEdge 2 1]) 1) as Hs.
  { apply elem_of_iter. vm_compute. reflexivity. }
  split; [exact Hs|]. apply DAG_successors_one_way, Hs.
Defined.

Lemma dfs_takes_first_neighbor_next_witness :
  1 ∈ nodes (diamond 1 2 3 4) ∧
  filter (λ x, x ≠ 1) (iter (get_neighbors (diamond 1 2 3 4) 1)) = [2; 3] ∧
  ∃ out, dfs (diamond 1 2 3 4) 1 = Ret (1 :: 2 :: out).
Proof.
  assert (1 ∈ nodes (diamond 1 2 3 4)) as Hs by (vm_compute; reflexivity).
  assert (filter (λ x, x ≠ 1) (iter (get_neighbors (diamond 1 2 3 4) 1)) = [2; 3])
    as Hn by (vm_compute; reflexivity).
  split; [exact Hs|]. split; [exact Hn|].
  exact (dfs_takes_first_neighbor_next (diamond 1 2 3 4) 1 2 [3] Hs Hn).
Defined.

(** ** The demonstration of the source file, evaluated *)

Section worked_examples.
Local Open Scope string_scope.

Example clothing_nodes :
  nodes clothing =
  {["shirt"; "pants"; "socks"; "vest"; "tie"; "belt"; "shoes"; "jacket"]}.
Proof. vm_compute. exact eq_refl. Qed.

Example clothing_successors_shirt :
  list_to_set (successors clothing "shirt") =@{gset string}
  {["tie"; "pants"; "vest"; "jacket"]}.
Proof. vm_compute. exact eq_refl. Qed.

Example clothing_top_sort :
  top_sort clothing =
  Ret ["socks"; "shirt"; "vest"; "tie"; "pants"; "shoes"; "belt"; "jacket"].
Proof. vm_compute. exact eq_refl. Qed.

(** With another iteration order the list differs and is also an order of
    the graph. *)
Example clothing_top_sort_reversed :
  top_sort (IterOrder0 := reverse_order) clothing =
  Ret ["shirt"; "socks"; "pants"; "tie"; "vest"; "belt"; "shoes"; "jacket"].
Proof. vm_compute. exact eq_refl. Qed.

Example clothing_dfs_shirt :
  dfs clothing "shirt" =
  Ret ["shirt"; "vest"; "jacket"; "tie"; "pants"; "shoes"; "belt"].
Proof. vm_compute. exact eq_refl. Qed.

Example clothing_bfs_shirt : bfs clothing "shirt" = Ret [].
Proof. vm_compute. exact eq_refl. Qed.

Example clothing_rejects_jacket_shirt :
  DAG_add_edge "jacket" "shirt" clothing =
  (Raise (ValueError "jacket" "shirt"), clothing).
Proof. vm_compute. exact eq_refl. Qed.

(** Outside the invariant of the data model the counting loop of [top_sort]
    meets a neighbor without a counter. *)
Example dangling_top_sort : top_sort dangling = Raise (KeyError 2).
Proof. vm_compute. exact eq_refl. Qed.

End worked_examples.
